(** * BFGS geometry optimiser ([bfgs_torch.py]): model and verified properties

  A shallow embedding of the class [BFGS] of
  [src/experimental/efficient_validation/bfgs_torch.py].

  - Scalars are kept abstract behind the interface [Scalar], with two
    instances: the real numbers (exact arithmetic, in which the algebraic
    properties are stated) and IEEE binary64 floats (the [torch.float64]
    the code runs on, in which the model evaluates).
  - Tensors are lists ([vec]) and lists of rows ([mat]).
  - The object and the [atoms] it drives form a [World]; methods are
    computations in a state-and-exception monad [M] whose state survives a
    raised exception, as the attributes of a Python object do. *)

From Stdlib Require Import Floats.
From Stdlib Require Import List Bool Arith ZArith Lia.
From Stdlib Require Import Reals Lra Psatz.
Import ListNotations.

Set Implicit Arguments.

(* ================================================================== *)
(** ** Scalars *)

(** The operations the source applies to numbers. [s1em7] is the literal
  [1e-7]; [smax] is the binary maximum used by the [max] reductions (on
  floats it propagates not-a-number, as [torch.max] and [numpy.max] do). *)
Class Scalar (T : Type) : Type := {
szero : T;
sone : T;
s1em7 : T;
sadd : T -> T -> T;
ssub : T -> T -> T;
smul : T -> T -> T;
sdiv : T -> T -> T;
sabs : T -> T;
ssqrt : T -> T;
sltb : T -> T -> bool;
sleb : T -> T -> bool;
smax : T -> T -> T
}.

Declare Scope scalar_scope.
Delimit Scope scalar_scope with sc.
Infix "[+]" := sadd (at level 50, left associativity) : scalar_scope.
Infix "[-]" := ssub (at level 50, left associativity) : scalar_scope.
Infix "[*]" := smul (at level 40, left associativity) : scalar_scope.
Infix "[/]" := sdiv (at level 40, left associativity) : scalar_scope.
Infix "[<]" := sltb (at level 70, no associativity) : scalar_scope.
Infix "[<=]" := sleb (at level 70, no associativity) : scalar_scope.
Local Open Scope scalar_scope.

(** Python's [x > y] and [x >= y]. *)
Definition sgtb {T} {ST : Scalar T} (x y : T) : bool := y [<] x.
Definition sgeb {T} {ST : Scalar T} (x y : T) : bool := y [<=] x.
Infix "[>]" := sgtb (at level 70, no associativity) : scalar_scope.
Infix "[>=]" := sgeb (at level 70, no associativity) : scalar_scope.

(** [x ** 2], the product of [x] with itself. *)
Definition ssq {T} {ST : Scalar T} (x : T) : T := x [*] x.

(* ================================================================== *)
(** ** Tensors *)

Definition vec (T : Type) : Type := list T.
Definition mat (T : Type) : Type := list (list T).

Section Tensors.
Context {T : Type} {ST : Scalar T}.

(** Elementwise binary operation on two tensors of one shape.  PyTorch and
    numpy raise on operands whose shapes do not fit; the properties below
    assume tensors of the shapes the class works with ([3N] and
    [3N x 3N]). *)
Fixpoint zipWith (op : T -> T -> T) (u v : vec T) : vec T :=
  match u, v with
  | x :: u', y :: v' => op x y :: zipWith op u' v'
  | _, _ => []
  end.

Definition vadd (u v : vec T) : vec T := zipWith sadd u v.
Definition vsub (u v : vec T) : vec T := zipWith ssub u v.
Definition vdiv (u v : vec T) : vec T := zipWith sdiv u v.
Definition vabs (u : vec T) : vec T := map sabs u.

(** [u.sum()], summed from left to right. *)
Definition vsum (u : vec T) : T := fold_left sadd u szero.

(** [torch.dot(u, v)]. *)
Definition dot (u v : vec T) : T := vsum (zipWith smul u v).

(** [u.max()]; [None] on an empty tensor, where the reduction raises. *)
Definition vmax (u : vec T) : option T :=
  match u with
  | [] => None
  | x :: u' => Some (fold_left smax u' x)
  end.

(** [torch.ger(u, v)], the outer product. *)
Definition ger (u v : vec T) : mat T :=
  map (fun x => map (fun y => x [*] y) v) u.

(** [torch.matmul(m, v)] for a matrix and a vector. *)
Definition matvec (m : mat T) (v : vec T) : vec T :=
  map (fun row => dot row v) m.

Definition col (j : nat) (m : mat T) : vec T :=
  map (fun row => nth j row szero) m.

Definition ncols (m : mat T) : nat := length (hd [] m).

(** [torch.matmul(v, m)] for a vector and a matrix. *)
Definition vecmat (v : vec T) (m : mat T) : vec T :=
  map (fun j => dot v (col j m)) (seq 0 (ncols m)).

Definition madd (m1 m2 : mat T) : mat T :=
  map (fun p => vadd (fst p) (snd p)) (combine m1 m2).
Definition msub (m1 m2 : mat T) : mat T :=
  map (fun p => vsub (fst p) (snd p)) (combine m1 m2).

(** [m * c] and [m / c] for a scalar [c]. *)
Definition mscale (m : mat T) (c : T) : mat T :=
  map (map (fun x => x [*] c)) m.
Definition mdivs (m : mat T) (c : T) : mat T :=
  map (map (fun x => x [/] c)) m.

(** [torch.eye(n)]. *)
Definition eye (n : nat) : mat T :=
  map (fun i => map (fun j => if Nat.eqb i j then sone else szero)
                    (seq 0 n))
      (seq 0 n).

(** [m.flatten()] / [m.reshape(-1)]. *)
Definition flatten (m : mat T) : vec T := concat m.

(** [v.view(-1, 3)]; [None] when the length is not a multiple of 3. *)
Fixpoint view3 (v : vec T) : option (mat T) :=
  match v with
  | [] => Some []
  | x :: y :: z :: v' =>
      match view3 v' with
      | Some m => Some ([x; y; z] :: m)
      | None => None
      end
  | _ => None
  end.

(** [(m ** 2).sum(axis=1)]. *)
Definition row_sumsq (m : mat T) : vec T :=
  map (fun row => vsum (map ssq row)) m.

Definition entry (i j : nat) (m : mat T) : T := nth j (nth i m []) szero.

Definition mat_shape (n k : nat) (m : mat T) : Prop :=
  length m = n /\ Forall (fun row => length row = k) m.

Definition symmetric (n : nat) (m : mat T) : Prop :=
  forall i j, i < n -> j < n -> entry i j m = entry j i m.
End Tensors.

(* ================================================================== *)
(** ** The external system *)

(** What the optimiser asks of [atoms]: [len(atoms)], [atoms.get_positions()]
    and [atoms.get_forces()] (both [N x 3] arrays, read without side effect)
    and [atoms.set_positions(p)]. *)
Class AtomsAPI (T A : Type) : Type := {
  atoms_len : A -> nat;
  atoms_get_positions : A -> mat T;
  atoms_get_forces : A -> mat T;
  atoms_set_positions : mat T -> A -> A
}.

(* ================================================================== *)
(** ** Exceptions and the monad *)

Inductive exn : Type :=
| TypeError      (* an operand is [None] *)
| ValueError     (* numpy reduction of an empty array *)
| RuntimeError   (* torch reduction of an empty tensor, or a bad [view] *)
| OutOfFuel.     (* the model's loop bound was too small; see [run] *)

Inductive res (X : Type) : Type :=
| Ok (x : X)
| Raise (e : exn).
Arguments Raise {X} e.

(** A computation reads and writes a state [S] and returns or raises; the
    state reached when an exception is raised is kept. *)
Definition M (S X : Type) : Type := S -> res X * S.

Definition ret {S X} (x : X) : M S X := fun w => (Ok x, w).
Definition bind {S X Y} (c : M S X) (k : X -> M S Y) : M S Y :=
  fun w => match c w with
           | (Ok x, w') => k x w'
           | (Raise e, w') => (Raise e, w')
           end.
Definition raise {S X} (e : exn) : M S X := fun w => (Raise e, w).
Definition gets {S X} (f : S -> X) : M S X := fun w => (Ok (f w), w).
Definition modify {S} (f : S -> S) : M S unit := fun w => (Ok tt, f w).

(** The value when it is there, the exception [e] otherwise. *)
Definition unwrap {S X} (e : exn) (o : option X) : M S X :=
  match o with
  | Some x => ret x
  | None => raise e
  end.

Declare Scope monad_scope.
Notation "x <- c ;; k" := (bind c (fun x => k))
  (at level 61, c at next level, right associativity) : monad_scope.
Notation "c ;; k" := (bind c (fun _ => k))
  (at level 61, right associativity) : monad_scope.
Local Open Scope monad_scope.

(* ================================================================== *)
(** ** The class [BFGS] *)

Section Model.
Context {T : Type} {ST : Scalar T} {A : Type} {AT : AtomsAPI T A}.

(** [torch.symeig(h, eigenvectors=True)]: eigenvalues and a matrix whose
    columns are eigenvectors.  The library routine is a parameter of the
    model; what is assumed of it is said where it is used. *)
Variable symeig : mat T -> vec T * mat T.

(** The attributes of a [BFGS] object, [atoms] apart.  [self.H] is only
    ever bound by [self.H = self.H0], which makes it the same tensor
    object as [self.H0]; the in-place [self.H -= val] then changes that
    one tensor.  So the model keeps the tensor in [H0] and records in
    [H_bound] whether [self.H] is bound to it or is still [None]. *)
Record BFGS : Type := mkBFGS {
  maxstep : T;
  H_bound : bool;
  H0 : mat T;
  r0 : option (vec T);
  f0 : option (vec T);
  fmax : T;
  nsteps : Z;
  max_steps : Z
}.

(** [self.H]. *)
Definition H (c : BFGS) : option (mat T) :=
  if H_bound c then Some (H0 c) else None.

Inductive warning : Type :=
| MaxstepTooLarge (m : T).

Record World : Type := mkWorld {
  core : BFGS;
  atoms : A;
  warnings : list warning;      (* what [warnings.warn] was given *)
  printed : list (Z * T)        (* what [print] was given *)
}.

Definition with_core (g : BFGS -> BFGS) (w : World) : World :=
  mkWorld (g (core w)) (atoms w) (warnings w) (printed w).

Definition with_atoms (g : A -> A) (w : World) : World :=
  mkWorld (core w) (g (atoms w)) (warnings w) (printed w).

(** [self.H = self.H0]. *)
Definition bind_H (c : BFGS) : BFGS :=
  mkBFGS (maxstep c) true (H0 c) (r0 c) (f0 c) (fmax c)
         (nsteps c) (max_steps c).

(** [self.H -= val], in place on the tensor [self.H] is bound to. *)
Definition isub_H (val : mat T) (c : BFGS) : BFGS :=
  mkBFGS (maxstep c) (H_bound c) (msub (H0 c) val) (r0 c) (f0 c) (fmax c)
         (nsteps c) (max_steps c).

(** [self.r0 = r.clone(); self.f0 = f.clone()]. *)
Definition set_snapshot (r f : vec T) (c : BFGS) : BFGS :=
  mkBFGS (maxstep c) (H_bound c) (H0 c) (Some r) (Some f) (fmax c)
         (nsteps c) (max_steps c).

(** [self.nsteps += 1]. *)
Definition incr_nsteps (c : BFGS) : BFGS :=
  mkBFGS (maxstep c) (H_bound c) (H0 c) (r0 c) (f0 c) (fmax c)
         (nsteps c + 1)%Z (max_steps c).

Definition print (line : Z * T) (w : World) : World :=
  mkWorld (core w) (atoms w) (warnings w) (printed w ++ [line]).

(** [BFGS.__init__(self, atoms, maxstep, fmax, alpha)]. *)
Definition init (a : A) (maxstep0 fmax0 alpha : T) : World :=
  mkWorld
    (mkBFGS maxstep0 false (mscale (eye (3 * atoms_len a)) alpha)
            None None fmax0 0%Z 100000000%Z)
    a
    (if maxstep0 [>] sone then [MaxstepTooLarge maxstep0] else [])
    [].

(** [BFGS.converged].  The threshold [self.fmax ** 2] is Python's float
    power: the square in exact arithmetic.  In binary64 it can differ from
    the product [fmax * fmax] in the last bit and raises [OverflowError]
    when the square overflows; the model takes the product, so that in
    binary64 it is used only where neither matters. *)
Definition converged : M World bool :=
  forces <- gets (fun w => atoms_get_forces (atoms w)) ;;
  m <- unwrap ValueError (vmax (row_sumsq forces)) ;;
  fm <- gets (fun w => fmax (core w)) ;;
  ret (m [<] ssq fm).

Definition get_forces : M World (mat T) :=
  gets (fun w => atoms_get_forces (atoms w)).

Definition get_positions : M World (mat T) :=
  gets (fun w => atoms_get_positions (atoms w)).

(** [BFGS.set_positions(update)]: the positions move by [update]. *)
Definition set_positions (upd : mat T) : M World unit :=
  r <- get_positions ;;
  modify (with_atoms (atoms_set_positions (madd r upd))).

(** [BFGS.determine_step]. *)
Definition determine_step (dr : mat T) (steplengths : vec T)
  : M World (mat T) :=
  maxsteplength <- unwrap RuntimeError (vmax steplengths) ;;
  ms <- gets (fun w => maxstep (core w)) ;;
  if maxsteplength [>=] ms
  then ret (mscale dr (ms [/] maxsteplength))
  else ret dr.

(** [BFGS.update].  PyTorch raises on tensors whose sizes do not fit
    ([r - r0], [f - f0], [dot], [matmul], [H -= val]); the tensor
    operations of the model are total, so that the model is that of the
    code on tensors of matching sizes. *)
Definition update (r f : vec T) (r0' f0' : option (vec T)) : M World unit :=
  h <- gets (fun w => H (core w)) ;;
  match h with
  | None => modify (with_core bind_H)
  | Some h =>
      r0v <- unwrap TypeError r0' ;;
      let dr := vsub r r0v in
      m <- unwrap RuntimeError (vmax (vabs dr)) ;;
      if m [<] s1em7 then ret tt
      else
        f0v <- unwrap TypeError f0' ;;
        let df := vsub f f0v in
        let a := dot dr df in
        let dg := matvec h dr in
        let b := dot dr dg in
        let val := madd (mdivs (ger df df) a) (mdivs (ger dg dg) b) in
        modify (with_core (isub_H val))
  end.

(** [BFGS.step]. *)
Definition step : M World unit :=
  r <- get_positions ;;
  f <- get_forces ;;
  let f := flatten f in
  let arg1 := flatten r in
  let arg2 := f in
  c <- gets core ;;
  update arg1 arg2 (r0 c) (f0 c) ;;
  oh <- gets (fun w => H (core w)) ;;
  h <- unwrap TypeError oh ;;
  let (omega1, V1) := symeig h in
  let dr1 := matvec V1 (vdiv (vecmat arg2 V1) (vabs omega1)) in
  dr1 <- unwrap RuntimeError (view3 dr1) ;;
  let steplengths1 := map ssqrt (row_sumsq dr1) in
  dr1 <- determine_step dr1 steplengths1 ;;
  set_positions dr1 ;;
  modify (with_core (set_snapshot arg1 arg2)).

(** The loop of [BFGS.run], unrolled at most [fuel] times.  The loop test is
    evaluated once more than the body runs, as in the source; [OutOfFuel]
    marks a bound that was too small and is no behaviour of the code. *)
Fixpoint run_loop (fuel : nat) : M World unit :=
  c <- converged ;;
  n <- gets (fun w => nsteps (core w)) ;;
  mx <- gets (fun w => max_steps (core w)) ;;
  if negb c && (n <? mx)%Z then
    match fuel with
    | O => raise OutOfFuel
    | S fuel' =>
        step ;;
        modify (with_core incr_nsteps) ;;
        forces <- gets (fun w => atoms_get_forces (atoms w)) ;;
        m <- unwrap ValueError (vmax (row_sumsq forces)) ;;
        n' <- gets (fun w => nsteps (core w)) ;;
        modify (print (n', ssqrt m)) ;;
        run_loop fuel'
    end
  else ret tt.

(** [BFGS.run(fmax)].  Every turn of the loop adds one to [nsteps], so
    [max_steps - nsteps] turns are enough. *)
Definition run (fmax0 : T) : M World unit :=
  fun w => run_loop (Z.to_nat (max_steps (core w) - nsteps (core w))) w.

End Model.

Arguments BFGS T : clear implicits.
Arguments World T A : clear implicits.
Arguments warning T : clear implicits.

(* ================================================================== *)
(** ** The two number systems *)

(** *** Exact arithmetic: the real numbers *)

Definition Rltb (x y : R) : bool := if Rlt_dec x y then true else false.
Definition Rleb (x y : R) : bool := if Rle_dec x y then true else false.

#[export] Instance R_Scalar : Scalar R := {|
  szero := 0%R;
  sone := 1%R;
  s1em7 := 1e-7%R;
  sadd := Rplus;
  ssub := Rminus;
  smul := Rmult;
  sdiv := Rdiv;
  sabs := Rabs;
  ssqrt := R_sqrt.sqrt;
  sltb := Rltb;
  sleb := Rleb;
  smax := Rmax
|}.

(** *** IEEE binary64: [torch.float64] and numpy's [float64] *)

Definition float_max (x y : PrimFloat.float) : PrimFloat.float :=
  if PrimFloat.is_nan x then x
  else if PrimFloat.is_nan y then y
  else if PrimFloat.ltb x y then y else x.

#[export] Instance float_Scalar : Scalar PrimFloat.float := {|
  szero := 0%float;
  sone := 1%float;
  s1em7 := 0x1.ad7f29abcaf48p-24%float;
  sadd := PrimFloat.add;
  ssub := PrimFloat.sub;
  smul := PrimFloat.mul;
  sdiv := PrimFloat.div;
  sabs := PrimFloat.abs;
  ssqrt := PrimFloat.sqrt;
  sltb := PrimFloat.ltb;
  sleb := PrimFloat.leb;
  smax := float_max
|}.

(** *** A plain external system

    The positions are stored, and the forces are a function of them. *)
Record Sys (T : Type) : Type := mkSys {
  sys_positions : mat T;
  sys_force : mat T -> mat T
}.

#[export] Instance Sys_Atoms (T : Type) : AtomsAPI T (Sys T) := {|
  atoms_len := fun a => length (sys_positions a);
  atoms_get_positions := fun a => sys_positions a;
  atoms_get_forces := fun a => sys_force a (sys_positions a);
  atoms_set_positions := fun p a => mkSys p (sys_force a)
|}.

(* ================================================================== *)
(** ** Sequences of [update] calls *)

Section Calls.
Context {T : Type} {ST : Scalar T} {A : Type}.

(** The correction [val] that [update] subtracts from [h]. *)
Definition correction (h : mat T) (r f r0v f0v : vec T) : mat T :=
  let dr := vsub r r0v in
  let df := vsub f f0v in
  let a := dot dr df in
  let dg := matvec h dr in
  let b := dot dr dg in
  madd (mdivs (ger df df) a) (mdivs (ger dg dg) b).

(** The arguments of one call [update(r, f, r0, f0)]. *)
Record update_call : Type := mkCall {
  call_r : vec T;
  call_f : vec T;
  call_r0 : option (vec T);
  call_f0 : option (vec T)
}.

(** Every tensor passed has [n] components. *)
Definition call_shaped (n : nat) (c : update_call) : Prop :=
  length (call_r c) = n /\ length (call_f c) = n
  /\ (forall v, call_r0 c = Some v -> length v = n)
  /\ (forall v, call_f0 c = Some v -> length v = n).

(** The state after the calls [cs], made one after the other; a call that
    raises leaves the state it reached. *)
Fixpoint updates (cs : list update_call) (w : World T A) : World T A :=
  match cs with
  | [] => w
  | c :: cs' =>
      updates cs' (snd (update (call_r c) (call_f c) (call_r0 c) (call_f0 c) w))
  end.
End Calls.
Arguments update_call T : clear implicits.

(** *** What the proofs ask of the order

    [x >= y] rules out [x < y].  It holds of the reals and of binary64
    (where both tests fail on not-a-number). *)
Definition geb_excludes_ltb (T : Type) {ST : Scalar T} : Prop :=
  forall x y : T, (x [>=] y) = true -> (x [<] y) = false.
Arguments geb_excludes_ltb T {ST}.

(** *** Words of the specification, over the reals *)

(** [m] is the maximum of the list [l]. *)
Definition is_max (m : R) (l : list R) : Prop :=
  In m l /\ forall x, In x l -> (x <= m)%R.

(** [omega], [V] is an eigendecomposition of the [n x n] matrix [h], as
    [torch.symeig] documents its result: [V] is orthogonal (its columns, and
    so its rows, are orthonormal) and column [j] of [V] is an eigenvector of
    [h] for the eigenvalue [omega_j]. *)
Definition is_symeig (n : nat) (h : mat R) (omega : vec R) (V : mat R) : Prop :=
  length omega = n /\ mat_shape n n V
  /\ (forall j k, j < n -> k < n ->
        dot (col j V) (col k V) = if Nat.eqb j k then 1%R else 0%R)
  /\ (forall i k, i < n -> k < n ->
        dot (nth i V []) (nth k V []) = if Nat.eqb i k then 1%R else 0%R)
  /\ (forall i j, i < n -> j < n ->
        dot (nth i h []) (col j V) = (nth j omega 0%R * entry i j V)%R).

(* ================================================================== *)
(** ** Sample inputs *)

(** One particle at the origin under the constant force [(0, 0, -1)]. *)
Definition sys_R : Sys R :=
  mkSys [[0; 0; 0]]%R (fun _ => [[0; 0; -1]]%R).

(** An eigensolver that answers with the eigenvalues 70, 70, 70 and the
    identity basis. *)
Definition eig_alpha70 : mat R -> vec R * mat R :=
  fun _ => ([70; 70; 70]%R, eye 3).

(** An object after its first step on [sys_R]: [H] is [70 * I] and the
    snapshot is the origin and the force there. *)
Definition world_R : World R (Sys R) :=
  mkWorld
    (mkBFGS 0.04%R true (mscale (eye 3) 70%R)
            (Some [0; 0; 0]%R) (Some [0; 0; -1]%R) 0.05%R 1%Z 100000000%Z)
    sys_R [] [].

(** The same object in binary64, with the particle moved to [(1, 0, 0)].
    The two hexadecimal literals are the doubles nearest to 0.04 and
    0.05. *)
Definition sys_f : Sys float :=
  mkSys [[1; 0; 0]]%float (fun _ => [[0; 0; 0]]%float).

Definition world_f : World float (Sys float) :=
  mkWorld
    (mkBFGS 0x1.47ae147ae147bp-5%float true (mscale (eye 3) 70%float)
            (Some [0; 0; 0]%float) (Some [0; 0; -1]%float)
            0x1.999999999999ap-5%float 1%Z 100000000%Z)
    sys_f [] [].

(* ================================================================== *)
(** ** Names for parts of a step and of a run *)

(** The raw displacement [dr1] that [step] computes from [H] and the
    flattened force, before it is cut into rows of three. *)
Definition raw_step {T : Type} {ST : Scalar T}
    (symeig : mat T -> vec T * mat T) (h : mat T) (arg2 : vec T) : vec T :=
  matvec (snd (symeig h))
         (vdiv (vecmat arg2 (snd (symeig h))) (vabs (fst (symeig h)))).

(** The step numbers [n + 1, ..., n + k]. *)
Definition step_numbers (n : Z) (k : nat) : list Z :=
  map (fun i => (n + 1 + Z.of_nat i)%Z) (seq 0 k).

(** *** More sample inputs *)

(** A system without a particle, and an eigensolver answering the empty
    decomposition. *)
Definition sys_empty_f : Sys float := mkSys [] (fun _ => []).

Definition eig_empty : mat float -> vec float * mat float :=
  fun _ => ([], []).

(** One particle whose force has a not-a-number component. *)
Definition sys_nan_f : Sys float :=
  mkSys [[0; 0; 0]]%float (fun _ => [[nan; 0; 0]]%float).

(* ================================================================== *)
(** ** Words of the specification: components and sums

    The statements about [update] and [converged] name the quantities of
    the specification by these definitions, which are written from its
    words and not from the tensor operations of the model. *)

(** [g 0 + g 1 + ... + g (n - 1)]. *)
Fixpoint rsum (n : nat) (g : nat -> R) : R :=
  match n with
  | O => 0%R
  | S k => (rsum k g + g k)%R
  end.

(** The sum of the squares of the components of one particle's vector. *)
Definition sum_sq (row : vec R) : R :=
  rsum (length row) (fun k => (nth k row 0 * nth k row 0)%R).

(** *** A proper update, as sample input

    From the snapshot [r0 = (0, 0, 0)], [f0 = (0, 0, -1)] of [world_R] the
    particle has moved to [(0, -1, 0)], where the force is [(0, 2, -1)]:
    [dr = (0, -1, 0)], [df = (0, 2, 0)], [a = -2], [dg = (0, -70, 0)] and
    [b = 70]. *)
Definition sample_r : vec R := [0; -1; 0]%R.
Definition sample_f : vec R := [0; 2; -1]%R.
Definition sample_r0 : vec R := [0; 0; 0]%R.
Definition sample_f0 : vec R := [0; 0; -1]%R.

(** The first call of a fresh object followed by that update. *)
Definition sample_calls : list (update_call R) :=
  [mkCall sample_r0 sample_f0 None None;
   mkCall sample_r sample_f (Some sample_r0) (Some sample_f0)].

(** A step of length 1 and what capping it at 0.04 gives. *)
Definition long_step : mat R := [[0; 0; -1]]%R.
Definition capped_long_step : mat R := mscale long_step (0.04 / 1)%R.

(* ================================================================== *)
(** * Properties *)

(** ** Tensors: shapes and entries *)

Section TensorFacts.
Context {T : Type} {ST : Scalar T}.

Lemma zipWith_length (op : T -> T -> T) (u v : vec T) :
  length u = length v -> length (zipWith op u v) = length u.
Proof.
  revert v; induction u as [|x u IH]; intros [|y v] E; simpl in *;
    try discriminate; auto.
Qed.

Lemma zipWith_nth (op : T -> T -> T) (u v : vec T) (i : nat) (d : T) :
  i < length u -> i < length v ->
  nth i (zipWith op u v) d = op (nth i u d) (nth i v d).
Proof.
  revert v i; induction u as [|x u IH]; intros [|y v] [|i] Hu Hv;
    simpl in *; try lia; auto.
  apply IH; lia.
Qed.

Lemma map_nth_in {X Y} (g : X -> Y) (l : list X) (i : nat) (dx : X) (dy : Y) :
  i < length l -> nth i (map g l) dy = g (nth i l dx).
Proof.
  revert i; induction l as [|x l IH]; intros [|i] Hi; simpl in *;
    try lia; auto.
  apply IH; lia.
Qed.

Lemma mat_shape_row (n k : nat) (m : mat T) (i : nat) :
  mat_shape n k m -> i < n -> length (nth i m []) = k.
Proof.
  intros [Hn Hrows] Hi.
  rewrite Forall_forall in Hrows. apply Hrows, nth_In. lia.
Qed.

Lemma ger_shape (u v : vec T) : mat_shape (length u) (length v) (ger u v).
Proof.
  unfold mat_shape, ger; split.
  - apply length_map.
  - apply Forall_forall; intros row Hin.
    apply in_map_iff in Hin as [x [<- _]]. apply length_map.
Qed.

Lemma ger_entry (u v : vec T) (i j : nat) :
  i < length u -> j < length v ->
  entry i j (ger u v) = nth i u szero [*] nth j v szero.
Proof.
  intros Hi Hj. unfold entry, ger.
  rewrite (map_nth_in _ u szero []) by assumption.
  apply (map_nth_in (fun y => nth i u szero [*] y) v szero szero Hj).
Qed.

Lemma mdivs_shape (n k : nat) (m : mat T) (c : T) :
  mat_shape n k m -> mat_shape n k (mdivs m c).
Proof.
  intros [Hn Hrows]; unfold mat_shape, mdivs; split.
  - now rewrite length_map.
  - apply Forall_forall; intros row Hin.
    apply in_map_iff in Hin as [x [<- Hx]]. rewrite length_map.
    rewrite Forall_forall in Hrows; auto.
Qed.

Lemma mdivs_entry (n k : nat) (m : mat T) (c : T) (i j : nat) :
  mat_shape n k m -> i < n -> j < k ->
  entry i j (mdivs m c) = entry i j m [/] c.
Proof.
  intros Hm Hi Hj. pose proof (mat_shape_row Hm Hi) as Hrow.
  destruct Hm as [Hn _]. unfold entry, mdivs.
  rewrite (map_nth_in _ m [] []) by lia.
  apply (map_nth_in (fun x => x [/] c) (nth i m []) szero szero). lia.
Qed.

Lemma mscale_shape (n k : nat) (m : mat T) (c : T) :
  mat_shape n k m -> mat_shape n k (mscale m c).
Proof.
  intros [Hn Hrows]; unfold mat_shape, mscale; split.
  - now rewrite length_map.
  - apply Forall_forall; intros row Hin.
    apply in_map_iff in Hin as [x [<- Hx]]. rewrite length_map.
    rewrite Forall_forall in Hrows; auto.
Qed.

Lemma mscale_entry (n k : nat) (m : mat T) (c : T) (i j : nat) :
  mat_shape n k m -> i < n -> j < k ->
  entry i j (mscale m c) = entry i j m [*] c.
Proof.
  intros Hm Hi Hj. pose proof (mat_shape_row Hm Hi) as Hrow.
  destruct Hm as [Hn _]. unfold entry, mscale.
  rewrite (map_nth_in _ m [] []) by lia.
  apply (map_nth_in (fun x => x [*] c) (nth i m []) szero szero). lia.
Qed.

Lemma combine_nth_in {X Y} (l1 : list X) (l2 : list Y) (i : nat) (dx : X) (dy : Y) :
  i < length l1 -> i < length l2 ->
  nth i (combine l1 l2) (dx, dy) = (nth i l1 dx, nth i l2 dy).
Proof.
  revert l2 i; induction l1 as [|x l1 IH]; intros [|y l2] [|i] H1 H2;
    simpl in *; try lia; auto.
  apply IH; lia.
Qed.

Lemma zip_rows_shape (op : T -> T -> T) (n k : nat) (m1 m2 : mat T) :
  mat_shape n k m1 -> mat_shape n k m2 ->
  mat_shape n k (map (fun p => zipWith op (fst p) (snd p)) (combine m1 m2)).
Proof.
  intros [Hn1 Hr1] [Hn2 Hr2]; unfold mat_shape; split.
  - rewrite length_map, length_combine. lia.
  - apply Forall_forall; intros row Hin.
    apply in_map_iff in Hin as [[a b] [<- Hp]]; simpl.
    rewrite Forall_forall in Hr1, Hr2.
    pose proof (in_combine_l _ _ _ _ Hp) as Ha.
    pose proof (in_combine_r _ _ _ _ Hp) as Hb.
    rewrite zipWith_length; [auto|]. rewrite (Hr1 _ Ha), (Hr2 _ Hb); auto.
Qed.

Lemma zip_rows_entry (op : T -> T -> T) (n k : nat) (m1 m2 : mat T) (i j : nat) :
  mat_shape n k m1 -> mat_shape n k m2 -> i < n -> j < k ->
  entry i j (map (fun p => zipWith op (fst p) (snd p)) (combine m1 m2))
  = op (entry i j m1) (entry i j m2).
Proof.
  intros Hm1 Hm2 Hi Hj.
  pose proof (mat_shape_row Hm1 Hi) as Hrow1.
  pose proof (mat_shape_row Hm2 Hi) as Hrow2.
  destruct Hm1 as [Hn1 _], Hm2 as [Hn2 _]. unfold entry.
  rewrite (map_nth_in _ (combine m1 m2) ([], []) [])
    by (rewrite length_combine; lia).
  rewrite combine_nth_in by lia. simpl.
  apply zipWith_nth; lia.
Qed.

Lemma madd_shape (n k : nat) (m1 m2 : mat T) :
  mat_shape n k m1 -> mat_shape n k m2 -> mat_shape n k (madd m1 m2).
Proof. apply zip_rows_shape. Qed.

Lemma msub_shape (n k : nat) (m1 m2 : mat T) :
  mat_shape n k m1 -> mat_shape n k m2 -> mat_shape n k (msub m1 m2).
Proof. apply zip_rows_shape. Qed.

Lemma madd_entry (n k : nat) (m1 m2 : mat T) (i j : nat) :
  mat_shape n k m1 -> mat_shape n k m2 -> i < n -> j < k ->
  entry i j (madd m1 m2) = entry i j m1 [+] entry i j m2.
Proof. apply zip_rows_entry. Qed.

Lemma msub_entry (n k : nat) (m1 m2 : mat T) (i j : nat) :
  mat_shape n k m1 -> mat_shape n k m2 -> i < n -> j < k ->
  entry i j (msub m1 m2) = entry i j m1 [-] entry i j m2.
Proof. apply zip_rows_entry. Qed.

Lemma eye_shape (n : nat) : mat_shape n n (eye n).
Proof.
  unfold mat_shape, eye; split.
  - now rewrite length_map, length_seq.
  - apply Forall_forall; intros row Hin.
    apply in_map_iff in Hin as [i [<- _]].
    now rewrite length_map, length_seq.
Qed.

Lemma eye_entry (n i j : nat) :
  i < n -> j < n ->
  entry i j (eye n) = if Nat.eqb i j then sone else szero.
Proof.
  intros Hi Hj. unfold entry, eye.
  rewrite (map_nth_in _ (seq 0 n) 0 []) by (rewrite length_seq; lia).
  rewrite (map_nth_in _ (seq 0 n) 0 szero) by (rewrite length_seq; lia).
  now rewrite !seq_nth by lia.
Qed.

Lemma matvec_length (m : mat T) (v : vec T) : length (matvec m v) = length m.
Proof. apply length_map. Qed.

End TensorFacts.

(* ================================================================== *)
(** ** The order of the two number systems *)

Lemma Rltb_true (x y : R) : Rltb x y = true <-> (x < y)%R.
Proof. unfold Rltb; destruct (Rlt_dec x y); split; intros; try lra; congruence. Qed.

Lemma Rltb_false (x y : R) : Rltb x y = false <-> (y <= x)%R.
Proof. unfold Rltb; destruct (Rlt_dec x y); split; intros; try lra; congruence. Qed.

Lemma Rleb_true (x y : R) : Rleb x y = true <-> (x <= y)%R.
Proof. unfold Rleb; destruct (Rle_dec x y); split; intros; try lra; congruence. Qed.

Lemma Rleb_false (x y : R) : Rleb x y = false <-> (y < x)%R.
Proof. unfold Rleb; destruct (Rle_dec x y); split; intros; try lra; congruence. Qed.

Lemma R_geb_excludes_ltb : geb_excludes_ltb R.
Proof.
  intros x y Hge. unfold sgeb in Hge. simpl in *.
  apply Rleb_true in Hge. apply Rltb_false. exact Hge.
Qed.

Lemma SFleb_excludes_SFltb (a b : spec_float) :
  SFleb a b = true -> SFltb b a = false.
Proof.
  unfold SFleb, SFltb.
  destruct a as [sa|sa| |sa ma ea], b as [sb|sb| |sb mb eb]; simpl;
    try destruct sa; try destruct sb; simpl; try congruence.
  all: rewrite (Z.compare_antisym ea eb);
    destruct (ea ?= eb)%Z; simpl; try congruence.
  all: change (PosDef.Pos.compare_cont Eq mb ma) with (Pos.compare mb ma);
    change (PosDef.Pos.compare_cont Eq ma mb) with (Pos.compare ma mb);
    rewrite (Pos.compare_antisym ma mb);
    destruct (Pos.compare ma mb); simpl; congruence.
Qed.

Lemma float_geb_excludes_ltb : geb_excludes_ltb float.
Proof.
  intros x y Hge. unfold sgeb in Hge. simpl in *.
  rewrite leb_spec in Hge. rewrite ltb_spec.
  now apply SFleb_excludes_SFltb.
Qed.

(* ================================================================== *)
(** ** The Hessian update *)

Ltac run_monad :=
  unfold bind, gets, unwrap, ret, raise, modify; simpl.

Ltac split_matches E :=
  repeat match type of E with
         | context [match ?x with _ => _ end] =>
             lazymatch x with
             | context [match _ with _ => _ end] => fail
             | _ => let Ex := fresh "Ex" in destruct x eqn:Ex; simpl in E
             end
         end.

Section UpdateFacts.
Context {T : Type} {ST : Scalar T} {A : Type} {AT : AtomsAPI T A}.

Lemma H_Some (c : BFGS T) (h : mat T) :
  H c = Some h -> H_bound c = true /\ H0 c = h.
Proof. unfold H; destruct (H_bound c); intros E; inversion E; auto. Qed.

Lemma H_None (c : BFGS T) : H c = None -> H_bound c = false.
Proof. unfold H; destruct (H_bound c); intros E; congruence. Qed.

(** The first call: [self.H] is bound to [self.H0] and nothing else is
    read or written. *)
Lemma update_unset (w : World T A) (r f : vec T) (r0' f0' : option (vec T)) :
  H (core w) = None ->
  update r f r0' f0' w = (Ok tt, with_core bind_H w).
Proof.
  intros E. unfold update; run_monad. now rewrite E.
Qed.

(** The degenerate step: below the tolerance the call returns at once. *)
Lemma update_degenerate (w : World T A) (h : mat T) (r f r0v : vec T)
      (f0' : option (vec T)) (m : T) :
  H (core w) = Some h ->
  vmax (vabs (vsub r r0v)) = Some m ->
  (m [<] s1em7) = true ->
  update r f (Some r0v) f0' w = (Ok tt, w).
Proof.
  intros E Em Hlt. unfold update; run_monad. now rewrite E, Em, Hlt.
Qed.

(** Past the tolerance test the correction is subtracted in place. *)
Lemma update_proper (w : World T A) (h : mat T) (r f r0v f0v : vec T) (m : T) :
  H (core w) = Some h ->
  vmax (vabs (vsub r r0v)) = Some m ->
  (m [<] s1em7) = false ->
  update r f (Some r0v) (Some f0v) w
  = (Ok tt,
     with_core
       (isub_H (madd (mdivs (ger (vsub f f0v) (vsub f f0v))
                            (dot (vsub r r0v) (vsub f f0v)))
                     (mdivs (ger (matvec h (vsub r r0v))
                                 (matvec h (vsub r r0v)))
                            (dot (vsub r r0v) (matvec h (vsub r r0v))))))
       w).
Proof.
  intros E Em Hlt. unfold update; run_monad. now rewrite E, Em, Hlt.
Qed.

(** Shape and entries of the correction [val]. *)
Lemma correction_shape (n : nat) (df dg : vec T) (a b : T) :
  length df = n -> length dg = n ->
  mat_shape n n (madd (mdivs (ger df df) a) (mdivs (ger dg dg) b)).
Proof.
  intros Hdf Hdg. apply madd_shape; apply mdivs_shape.
  - pose proof (ger_shape df df) as S. now rewrite Hdf in S.
  - pose proof (ger_shape dg dg) as S. now rewrite Hdg in S.
Qed.

Lemma correction_entry (n : nat) (df dg : vec T) (a b : T) (i j : nat) :
  length df = n -> length dg = n -> i < n -> j < n ->
  entry i j (madd (mdivs (ger df df) a) (mdivs (ger dg dg) b))
  = nth i df szero [*] nth j df szero [/] a
    [+] nth i dg szero [*] nth j dg szero [/] b.
Proof.
  intros Hdf Hdg Hi Hj.
  assert (Sdf : mat_shape n n (ger df df))
    by (pose proof (ger_shape df df) as S; now rewrite Hdf in S).
  assert (Sdg : mat_shape n n (ger dg dg))
    by (pose proof (ger_shape dg dg) as S; now rewrite Hdg in S).
  rewrite (@madd_entry _ _ n n) by (auto using mdivs_shape).
  rewrite !(@mdivs_entry _ _ n n) by auto.
  rewrite !ger_entry by lia. reflexivity.
Qed.

(** In every number system in which [x >= y] rules out [x < y]: once the
    tolerance test of [update] is passed, the call returns normally and the
    new [H] is the old one minus the correction, entry by entry, the
    operands being the tensors [update] computes. *)
Lemma update_rank_two_any_scalar
    (Hord : geb_excludes_ltb T)
    (w : World T A) (h : mat T) (r f r0v f0v : vec T) (n : nat) (m : T) :
  H (core w) = Some h -> mat_shape n n h ->
  length r = n -> length r0v = n -> length f = n -> length f0v = n ->
  vmax (vabs (vsub r r0v)) = Some m ->
  (m [>=] s1em7) = true ->
  let dr := vsub r r0v in
  let df := vsub f f0v in
  let a := dot dr df in
  let dg := matvec h dr in
  let b := dot dr dg in
  let val := madd (mdivs (ger df df) a) (mdivs (ger dg dg) b) in
  exists w',
    update r f (Some r0v) (Some f0v) w = (Ok tt, w')
    /\ w' = with_core (isub_H val) w
    /\ H (core w') = Some (msub h val)
    /\ mat_shape n n (msub h val)
    /\ forall i j, i < n -> j < n ->
         entry i j (msub h val)
         = entry i j h
           [-] (nth i df szero [*] nth j df szero [/] a
               [+] nth i dg szero [*] nth j dg szero [/] b).
Proof.
  intros E Sh Lr Lr0 Lf Lf0 Em Hge dr df a dg b val.
  apply Hord in Hge.
  assert (Ldf : length df = n)
    by (unfold df, vsub; rewrite zipWith_length; lia).
  assert (Ldg : length dg = n)
    by (unfold dg; rewrite matvec_length; apply Sh).
  assert (Sval : mat_shape n n val) by (apply correction_shape; auto).
  exists (with_core (isub_H val) w). split; [|split; [|split; [|split]]].
  - apply (update_proper w r f r0v f0v E Em Hge).
  - reflexivity.
  - apply H_Some in E as [Eb E0]. unfold H; simpl. now rewrite Eb, E0.
  - now apply msub_shape.
  - intros i j Hi Hj.
    rewrite (@msub_entry _ _ n n) by auto.
    unfold val. now rewrite (@correction_entry n) by auto.
Qed.

(** C4. On the first [update] call of a freshly constructed object, [H] is
    unset; the call returns normally with [H] bound to [H0], which is
    [torch.eye(3N) * alpha]: a [3N x 3N] matrix whose entry [(i,j)] is
    [1 * alpha] on the diagonal and [0 * alpha] off it.  The resulting state
    is the same whatever [r], [f], [r0] and [f0] are (also when [r0] and
    [f0] are [None]): they are not read and nothing is computed. *)
Theorem first_update_binds_alpha_identity
    (a : A) (ms fm alpha : T) (r f : vec T) (r0' f0' : option (vec T)) :
  let w := init a ms fm alpha in
  let n := 3 * atoms_len a in
  H (core w) = None
  /\ update r f r0' f0' w = (Ok tt, with_core bind_H w)
  /\ H (core (with_core bind_H w)) = Some (mscale (eye n) alpha)
  /\ mat_shape n n (mscale (eye n) alpha)
  /\ forall i j, i < n -> j < n ->
       entry i j (mscale (eye n) alpha)
       = (if Nat.eqb i j then sone else szero) [*] alpha.
Proof.
  intros w n. split; [reflexivity|]. split; [|split; [|split]].
  - now apply update_unset.
  - reflexivity.
  - apply mscale_shape, eye_shape.
  - intros i j Hi Hj.
    rewrite (@mscale_entry _ _ n n) by (auto using eye_shape).
    now rewrite eye_entry.
Qed.

End UpdateFacts.

(* ================================================================== *)
(** ** What a step and the driving loop leave alone *)

Section StepFacts.
Context {T : Type} {ST : Scalar T} {A : Type} {AT : AtomsAPI T A}.
Variable symeig : mat T -> vec T * mat T.

(** [update] writes nothing but [H]. *)
Lemma update_frame (r f : vec T) (r0' f0' : option (vec T))
      (w w' : World T A) (res : res unit) :
  update r f r0' f0' w = (res, w') ->
  atoms w' = atoms w /\ warnings w' = warnings w /\ printed w' = printed w
  /\ r0 (core w') = r0 (core w) /\ f0 (core w') = f0 (core w)
  /\ maxstep (core w') = maxstep (core w) /\ fmax (core w') = fmax (core w)
  /\ nsteps (core w') = nsteps (core w)
  /\ max_steps (core w') = max_steps (core w).
Proof.
  unfold update; run_monad. intros E.
  split_matches E; inversion E; subst; simpl; repeat split; reflexivity.
Qed.

(** [update] raises nothing but [TypeError] and [RuntimeError], and leaves
    the state as it found it when it does. *)
Lemma update_raise (r f : vec T) (r0' f0' : option (vec T))
      (w w' : World T A) (e : exn) :
  update r f r0' f0' w = (Raise e, w') ->
  w' = w /\ (e = TypeError \/ e = RuntimeError).
Proof.
  unfold update; run_monad. intros E.
  split_matches E; inversion E; subst; auto.
Qed.

(** After a normal return of [update], [H] is set. *)
Lemma update_ok_bound (r f : vec T) (r0' f0' : option (vec T))
      (w w' : World T A) :
  update r f r0' f0' w = (Ok tt, w') -> H_bound (core w') = true.
Proof.
  unfold update, H; run_monad. intros E.
  split_matches E; inversion E; subst; simpl; auto.
Qed.

(** [determine_step] writes nothing. *)
Lemma determine_step_frame (dr : mat T) (sl : vec T)
      (w w' : World T A) (res : res (mat T)) :
  determine_step dr sl w = (res, w') ->
  w' = w /\ res <> Raise OutOfFuel.
Proof.
  unfold determine_step; run_monad. intros E.
  split_matches E; inversion E; subst; split; auto; discriminate.
Qed.

(** [converged] writes nothing. *)
Lemma converged_frame (w w' : World T A) (res : res bool) :
  converged w = (res, w') -> w' = w /\ res <> Raise OutOfFuel.
Proof.
  unfold converged; run_monad. intros E.
  split_matches E; inversion E; subst; split; auto; discriminate.
Qed.

(** A step is the Hessian update followed by work that does not touch [H]:
    the [H] a step ends with is the one its [update] call left.  When the
    step returns normally so did the update, and the snapshot [(r0, f0)] is
    the positions and forces read at the start of the step. *)
Lemma step_inv (w w2 : World T A) (res : res unit) :
  step symeig w = (res, w2) ->
  let arg1 := flatten (atoms_get_positions (atoms w)) in
  let arg2 := flatten (atoms_get_forces (atoms w)) in
  exists resu wu,
    update arg1 arg2 (r0 (core w)) (f0 (core w)) w = (resu, wu)
    /\ H_bound (core w2) = H_bound (core wu)
    /\ H0 (core w2) = H0 (core wu)
    /\ nsteps (core w2) = nsteps (core w)
    /\ max_steps (core w2) = max_steps (core w)
    /\ fmax (core w2) = fmax (core w)
    /\ maxstep (core w2) = maxstep (core w)
    /\ res <> Raise OutOfFuel
    /\ (res = Ok tt ->
        resu = Ok tt /\ r0 (core w2) = Some arg1 /\ f0 (core w2) = Some arg2).
Proof.
  intros E arg1 arg2.
  unfold step, get_positions, get_forces in E.
  unfold bind at 1 2 3 4 in E. unfold gets at 1 2 3 in E. simpl in E.
  fold arg1 arg2 in E.
  destruct (update arg1 arg2 (r0 (core w)) (f0 (core w)) w)
    as [resu wu] eqn:Eu.
  exists resu, wu. split; [reflexivity|].
  pose proof (update_frame _ _ _ _ _ Eu) as
    (Fa & Fw & Fp & Fr & Ff & Fm & Ffm & Fn & Fmx).
  destruct resu as [[]|e].
  - unfold set_positions, get_positions, determine_step in E.
    revert E; run_monad; intros E.
    split_matches E; inversion E; subst; simpl;
      repeat split; auto; try discriminate; intros; discriminate.
  - inversion E; subst.
    apply update_raise in Eu as [_ [-> | ->]];
      repeat split; auto; try discriminate; intros; discriminate.
Qed.

(** When the test of the loop holds at once, the loop returns at once. *)
Lemma run_loop_converged (fuel : nat) (w : World T A) :
  converged w = (Ok true, w) -> run_loop symeig fuel w = (Ok tt, w).
Proof.
  intros Ec. destruct fuel; simpl; unfold bind at 1; rewrite Ec;
    reflexivity.
Qed.

(** C10. The argument [fmax] of [run] is not used: for any two values of
    it, from the same state and with the same external system, [run] gives
    the same result and the same final state (the object, the positions
    written to the system, and every line printed on the way).  Convergence
    is tested by [converged()], against the [fmax] stored in the object:
    when that test holds, [run] returns at once without a step, whatever
    its argument. *)
Theorem run_ignores_its_fmax_argument
    (fmax1 fmax2 : T) (w : World T A) :
  run symeig fmax1 w = run symeig fmax2 w
  /\ (converged w = (Ok true, w) -> run symeig fmax1 w = (Ok tt, w)).
Proof.
  split; [reflexivity|]. intros Ec. unfold run.
  now apply run_loop_converged.
Qed.

(** The fuel [run] gives its loop is never used up: [OutOfFuel] is not a
    result of [run]. *)
Lemma run_loop_fuel_suffices (fuel : nat) :
  forall w : World T A,
    (max_steps (core w) - nsteps (core w) <= Z.of_nat fuel)%Z ->
    fst (run_loop symeig fuel w) <> Raise OutOfFuel.
Proof.
  induction fuel as [|fuel IH]; intros w Hfuel; simpl.
  - unfold bind at 1.
    destruct (converged w) as [[c|e] wc] eqn:Ec;
      apply converged_frame in Ec as [-> Hc]; simpl; [|congruence].
    run_monad. destruct (negb c) eqn:Enc; simpl; [|discriminate].
    destruct (nsteps (core w) <? max_steps (core w))%Z eqn:Elt; simpl;
      [|discriminate].
    apply Z.ltb_lt in Elt. lia.
  - unfold bind at 1.
    destruct (converged w) as [[c|e] wc] eqn:Ec;
      apply converged_frame in Ec as [-> Hc]; simpl; [|congruence].
    unfold bind at 1 2; unfold gets at 1 2; simpl.
    destruct (negb c && (nsteps (core w) <? max_steps (core w))%Z) eqn:Eb;
      simpl; [|discriminate].
    unfold bind at 1.
    destruct (step symeig w) as [[[]|e] w1] eqn:Es;
      pose proof (step_inv _ Es) as
        (resu & wu & _ & _ & _ & Hn & Hmx & _ & _ & Hne & _);
      simpl; [|congruence].
    run_monad.
    destruct (vmax (row_sumsq (atoms_get_forces (atoms w1)))); simpl;
      [|discriminate].
    apply IH. simpl. rewrite Hn, Hmx. lia.
Qed.

Lemma run_never_out_of_fuel (fmax0 : T) (w : World T A) :
  fst (run symeig fmax0 w) <> Raise OutOfFuel.
Proof. unfold run. apply run_loop_fuel_suffices. lia. Qed.

End StepFacts.

(* ================================================================== *)
(** ** Exact arithmetic *)

Section RealFacts.
Context {A : Type} {AT : AtomsAPI R A}.
Local Open Scope R_scope.

Lemma fold_Rmax_spec (l : list R) :
  forall x,
    (fold_left Rmax l x = x \/ In (fold_left Rmax l x) l)
    /\ x <= fold_left Rmax l x
    /\ forall y, In y l -> y <= fold_left Rmax l x.
Proof.
  induction l as [|a l IH]; intros x; simpl.
  - split; [auto|split; [lra|intros y []]].
  - destruct (IH (Rmax x a)) as (Hin & Hle & Hall).
    pose proof (Rmax_l x a). pose proof (Rmax_r x a).
    split; [|split].
    + destruct Hin as [Heq|Hin]; [|auto].
      rewrite Heq. unfold Rmax. destruct (Rle_dec x a); auto.
    + lra.
    + intros y [<-|Hy]; [lra|auto].
Qed.

(** The [max] reduction returns the maximum of a non-empty list. *)
Lemma vmax_is_max (l : vec R) :
  l <> [] -> exists m, vmax l = Some m /\ is_max m l.
Proof.
  destruct l as [|x l]; [congruence|intros _].
  exists (fold_left Rmax l x). split; [reflexivity|].
  destruct (fold_Rmax_spec l x) as (Hin & Hle & Hall). split.
  - destruct Hin as [->|Hin]; simpl; auto.
  - intros y [<-|Hy]; auto.
Qed.

Lemma is_max_unique (m1 m2 : R) (l : list R) :
  is_max m1 l -> is_max m2 l -> m1 = m2.
Proof.
  intros [I1 U1] [I2 U2]. apply U2 in I1. apply U1 in I2. lra.
Qed.

Lemma vmax_Some_is_max (l : vec R) (m : R) :
  vmax l = Some m -> is_max m l.
Proof.
  intros E. destruct l as [|x l]; [discriminate|].
  destruct (@vmax_is_max (x :: l)) as (m' & E' & Hm); [discriminate|].
  congruence.
Qed.

(** With at least one particle, [converged()] returns normally and writes
    nothing; its answer compares the maximum of the values it computed with
    the product of the stored [fmax] with itself. *)
Lemma converged_compares_computed_max (w : World R A) :
  atoms_get_forces (atoms w) <> [] ->
  exists mx b,
    is_max mx (row_sumsq (atoms_get_forces (atoms w)))
    /\ converged w = (Ok b, w)
    /\ (b = true <-> mx < fmax (core w) * fmax (core w))
    /\ (mx = fmax (core w) * fmax (core w) -> b = false).
Proof.
  intros Hne.
  destruct (@vmax_is_max (row_sumsq (atoms_get_forces (atoms w))))
    as (mx & Emx & Hmx).
  { unfold row_sumsq. destruct (atoms_get_forces (atoms w));
      [congruence|discriminate]. }
  exists mx, (Rltb mx (fmax (core w) * fmax (core w))).
  split; [exact Hmx|]. split; [|split].
  - unfold converged; run_monad. now rewrite Emx.
  - apply Rltb_true.
  - intros ->. apply Rltb_false. lra.
Qed.

(** C9. The constructor always returns an object holding the [maxstep] it
    was given; it hands one warning to [warnings.warn] when [maxstep] is
    strictly above [1.0], and none when [maxstep <= 1.0]. *)
Theorem init_warns_exactly_above_one (a : A) (ms fm alpha : R) :
  maxstep (core (init a ms fm alpha)) = ms
  /\ (1 < ms -> warnings (init a ms fm alpha) = [MaxstepTooLarge ms])
  /\ (ms <= 1 -> warnings (init a ms fm alpha) = []).
Proof.
  split; [reflexivity|]. unfold init, sgtb; simpl. split; intros Hms.
  - apply Rltb_true in Hms. now rewrite Hms.
  - apply Rltb_false in Hms. now rewrite Hms.
Qed.

Lemma vsub_self_abs (r : vec R) :
  Forall (fun x => x = 0) (vabs (vsub r r)).
Proof.
  induction r as [|x r IH]; simpl; constructor; auto.
  replace (x - x) with 0 by lra. apply Rabs_R0.
Qed.

Lemma fold_Rmax_zeros (l : list R) :
  Forall (fun x => x = 0) l -> fold_left Rmax l 0 = 0.
Proof.
  induction 1 as [|x l Hx _ IH]; simpl; auto.
  subst x. replace (Rmax 0 0) with 0; auto.
  unfold Rmax. destruct (Rle_dec 0 0); auto.
Qed.

Lemma vmax_zeros (l : vec R) :
  l <> [] -> Forall (fun x => x = 0) l -> vmax l = Some 0.
Proof.
  destruct l as [|x l]; [congruence|]. intros _ Hall.
  inversion Hall as [|? ? Hx Hl]; subst. simpl.
  now rewrite fold_Rmax_zeros.
Qed.

Lemma s1em7_pos : (0 [<] s1em7) = true.
Proof. simpl. apply Rltb_true. lra. Qed.

(** An update whose positions are those of the snapshot leaves the state
    alone: it either stops at the tolerance test or, without any
    coordinate, at the [max] of an empty tensor. *)
Lemma update_same_positions (w w' : World R A) (h : mat R) (r f : vec R)
      (f0' : option (vec R)) (res : res unit) :
  H (core w) = Some h ->
  update r f (Some r) f0' w = (res, w') -> w' = w.
Proof.
  intros E Eu. destruct r as [|x r].
  - unfold update in Eu; revert Eu; run_monad. rewrite E. simpl.
    intros Eu; now inversion Eu.
  - assert (Ed : update (x :: r) f (Some (x :: r)) f0' w = (Ok tt, w)).
    { eapply update_degenerate; [exact E| |apply s1em7_pos].
      apply vmax_zeros; [simpl; discriminate|apply vsub_self_abs]. }
    pose proof (eq_trans (eq_sym Eu) Ed) as Heq. now inversion Heq.
Qed.

(** C5. When [H] is already set and the largest absolute component of
    [dr = r - r0] is strictly below [1e-7], [update] returns normally
    without changing [H] (or anything else).  Hence: after a [step()] that
    returned normally, a second [step()] that reads the same positions as
    the first leaves [H] as the first left it, however the second step
    ends. *)
Theorem degenerate_update_keeps_H :
  (forall (w : World R A) (h : mat R) (r f r0v : vec R)
          (f0' : option (vec R)) (m : R),
      H (core w) = Some h ->
      length r = length r0v ->
      vmax (vabs (vsub r r0v)) = Some m ->
      m < 1e-7 ->
      update r f (Some r0v) f0' w = (Ok tt, w))
  /\
  (forall (symeig : mat R -> vec R * mat R)
          (w w1 w1' w2 : World R A) (res2 : res unit),
      step symeig w = (Ok tt, w1) ->
      core w1' = core w1 ->
      atoms_get_positions (atoms w1') = atoms_get_positions (atoms w) ->
      step symeig w1' = (res2, w2) ->
      H (core w2) = H (core w1)).
Proof.
  split.
  - intros w h r f r0v f0' m E _ Em Hlt.
    eapply update_degenerate; [exact E|exact Em|].
    simpl. now apply Rltb_true.
  - intros symeig w w1 w1' w2 res2 E1 Ecore Epos E2.
    apply step_inv in E1 as
      (resu & wu & Eu & Hb & _ & _ & _ & _ & _ & _ & Hok).
    destruct (Hok eq_refl) as (-> & Er0 & _).
    apply update_ok_bound in Eu. rewrite Eu in Hb.
    apply step_inv in E2 as
      (resu2 & wu2 & Eu2 & Hb2 & H02 & _).
    rewrite Ecore, Er0, Epos in Eu2.
    apply update_same_positions with (h := H0 (core w1)) in Eu2.
    + subst wu2. unfold H. rewrite Hb2, H02, Ecore. reflexivity.
    + unfold H. now rewrite Ecore, Hb.
Qed.

End RealFacts.

(* ================================================================== *)
(** ** Symmetry of [H] *)

Section UpdateCases.
Context {T : Type} {ST : Scalar T} {A : Type}.

(** The three ways a call of [update] can end. *)
Lemma update_cases (r f : vec T) (r0' f0' : option (vec T))
      (w w' : World T A) (res : res unit) :
  update r f r0' f0' w = (res, w') ->
  w' = w
  \/ w' = with_core bind_H w
  \/ exists r0v f0v,
       r0' = Some r0v /\ f0' = Some f0v
       /\ w' = with_core (isub_H (correction (H0 (core w)) r f r0v f0v)) w.
Proof.
  unfold update, H, correction; run_monad. intros E.
  split_matches E; inversion E; subst; auto.
  right; right. eauto.
Qed.
End UpdateCases.

Section Symmetry.
Context {A : Type}.
Local Open Scope R_scope.

Lemma alpha_identity_symmetric (n : nat) (alpha : R) :
  symmetric n (mscale (eye n) alpha).
Proof.
  intros i j Hi Hj.
  rewrite !(@mscale_entry _ _ n n) by (auto using eye_shape).
  rewrite !eye_entry by assumption.
  now rewrite (Nat.eqb_sym i j).
Qed.

Lemma correction_keeps_symmetric (n : nat) (h : mat R) (r f r0v f0v : vec R) :
  mat_shape n n h -> symmetric n h ->
  length r = n -> length r0v = n -> length f = n -> length f0v = n ->
  mat_shape n n (msub h (correction h r f r0v f0v))
  /\ symmetric n (msub h (correction h r f r0v f0v)).
Proof.
  intros Sh Hsym Lr Lr0 Lf Lf0. unfold correction.
  set (dr := vsub r r0v). set (df := vsub f f0v).
  set (dg := matvec h dr).
  assert (Ldf : length df = n)
    by (unfold df, vsub; rewrite zipWith_length; lia).
  assert (Ldg : length dg = n)
    by (unfold dg; rewrite matvec_length; apply Sh).
  pose proof (@correction_shape _ _ n df dg (dot dr df) (dot dr dg) Ldf Ldg)
    as Sval.
  split; [now apply msub_shape|].
  intros i j Hi Hj.
  rewrite !(@msub_entry _ _ n n) by auto.
  rewrite !(@correction_entry _ _ n) by auto.
  rewrite (Hsym i j Hi Hj). simpl. unfold Rdiv. ring.
Qed.

(** One call keeps [H0], the tensor behind [H], square and symmetric. *)
Lemma update_keeps_symmetric (n : nat) (c : update_call R)
      (w w' : World R A) (res : res unit) :
  call_shaped n c ->
  mat_shape n n (H0 (core w)) -> symmetric n (H0 (core w)) ->
  update (call_r c) (call_f c) (call_r0 c) (call_f0 c) w = (res, w') ->
  mat_shape n n (H0 (core w')) /\ symmetric n (H0 (core w')).
Proof.
  intros (Lr & Lf & Lr0 & Lf0) Sh Hsym E.
  apply update_cases in E as [->|[->|(r0v & f0v & Er0 & Ef0 & ->)]];
    simpl; auto.
  apply correction_keeps_symmetric; auto.
Qed.

Lemma updates_keep_symmetric (n : nat) (cs : list (update_call R)) :
  forall w : World R A,
    Forall (call_shaped n) cs ->
    mat_shape n n (H0 (core w)) -> symmetric n (H0 (core w)) ->
    mat_shape n n (H0 (core (updates cs w)))
    /\ symmetric n (H0 (core (updates cs w))).
Proof.
  induction cs as [|c cs IH]; intros w Hcs Sh Hsym; simpl; [auto|].
  inversion Hcs as [|? ? Hc Hcs']; subst.
  destruct (update (call_r c) (call_f c) (call_r0 c) (call_f0 c) w)
    as [res w'] eqn:E. simpl.
  destruct (@update_keeps_symmetric n c w w' res Hc Sh Hsym E) as [Sh' Hsym'].
  now apply IH.
Qed.

(** C6. Symmetry is an invariant of [H].  The matrix that [H] is first set
    to, [alpha] times the identity, is symmetric; a call of [update] on a
    symmetric [n x n] matrix [H] with tensors of [n] components leaves [H]
    symmetric, however the call ends; and so, after any sequence of such
    calls on a freshly constructed object, [H] is symmetric whenever it is
    set. *)
Theorem H_symmetry_invariant {AT : AtomsAPI R A} :
  (forall (n : nat) (alpha : R), symmetric n (mscale (eye n) alpha))
  /\
  (forall (n : nat) (c : update_call R) (w w' : World R A) (h h' : mat R)
          (res : res unit),
      call_shaped n c ->
      H (core w) = Some h -> mat_shape n n h -> symmetric n h ->
      update (call_r c) (call_f c) (call_r0 c) (call_f0 c) w = (res, w') ->
      H (core w') = Some h' ->
      mat_shape n n h' /\ symmetric n h')
  /\
  (forall (a : A) (ms fm alpha : R) (cs : list (update_call R)) (h : mat R),
      Forall (call_shaped (3 * atoms_len a)) cs ->
      H (core (updates cs (init a ms fm alpha))) = Some h ->
      mat_shape (3 * atoms_len a) (3 * atoms_len a) h
      /\ symmetric (3 * atoms_len a) h).
Proof.
  split; [|split].
  - apply alpha_identity_symmetric.
  - intros n c w w' h h' res Hc E Sh Hsym Eu E'.
    apply H_Some in E as [_ <-]. apply H_Some in E' as [_ <-].
    eapply update_keeps_symmetric; eauto.
  - intros a ms fm alpha cs h Hcs E.
    apply H_Some in E as [_ <-].
    apply updates_keep_symmetric; auto; simpl.
    + apply mscale_shape, eye_shape.
    + apply alpha_identity_symmetric.
Qed.

End Symmetry.

(* ================================================================== *)
(** ** Capping the step *)

Section Capping.
Context {A : Type}.
Local Open Scope R_scope.

Lemma fold_Rplus_acc (l : list R) :
  forall a, fold_left Rplus l a = a + fold_left Rplus l 0.
Proof.
  induction l as [|x l IH]; intros a; simpl; [lra|].
  rewrite (IH (a + x)), (IH (0 + x)). lra.
Qed.

Lemma sumsq_nonneg (row : vec R) : 0 <= vsum (map ssq row).
Proof.
  unfold vsum, ssq. simpl.
  induction row as [|x row IH]; simpl; [lra|].
  rewrite fold_Rplus_acc. nra.
Qed.

Lemma sumsq_scale (row : vec R) (c : R) :
  vsum (map ssq (map (fun x => x * c) row)) = (c * c) * vsum (map ssq row).
Proof.
  unfold vsum, ssq. simpl.
  induction row as [|x row IH]; simpl; [lra|].
  rewrite fold_Rplus_acc, IH.
  rewrite (fold_Rplus_acc _ (0 + x * x)). ring.
Qed.

(** Scaling every displacement by [c] scales every length by [|c|]. *)
Lemma steplengths_scale (dr : mat R) (c : R) :
  map ssqrt (row_sumsq (mscale dr c))
  = map (fun x => Rabs c * x) (map ssqrt (row_sumsq dr)).
Proof.
  unfold row_sumsq, mscale. rewrite !map_map.
  apply map_ext; intros row. simpl.
  transitivity (sqrt (c * c * vsum (map ssq row))).
  { f_equal. exact (sumsq_scale row c). }
  rewrite sqrt_mult_alt by nra.
  now rewrite <- (sqrt_Rsqr_abs c).
Qed.

Lemma is_max_scale (k m : R) (l : list R) :
  0 <= k -> is_max m l -> is_max (k * m) (map (fun x => k * x) l).
Proof.
  intros Hk [Hin Hub]; split.
  - apply in_map_iff. eauto.
  - intros y Hy. apply in_map_iff in Hy as (x & <- & Hx).
    apply Hub in Hx. nra.
Qed.

Lemma mscale_one (dr : mat R) : mscale dr 1 = dr.
Proof.
  unfold mscale. rewrite <- (map_id dr) at 2.
  apply map_ext; intros row. rewrite <- (map_id row) at 2.
  apply map_ext; intros x. simpl. lra.
Qed.

Lemma determine_step_below (w : World R A) (dr : mat R) (sl : vec R) (mx : R) :
  vmax sl = Some mx -> mx < maxstep (core w) ->
  determine_step dr sl w = (Ok dr, w).
Proof.
  intros E Hlt. unfold determine_step, sgeb; run_monad. rewrite E.
  apply Rleb_false in Hlt. now rewrite Hlt.
Qed.

Lemma determine_step_reached (w : World R A) (dr : mat R) (sl : vec R) (mx : R) :
  vmax sl = Some mx -> maxstep (core w) <= mx ->
  determine_step dr sl w = (Ok (mscale dr (maxstep (core w) / mx)), w).
Proof.
  intros E Hle. unfold determine_step, sgeb; run_monad. rewrite E.
  apply Rleb_true in Hle. now rewrite Hle.
Qed.

(** C2. Let [dr] hold the displacement of at least one particle and let
    [steplengths] be the Euclidean lengths of its rows, with maximum [mx].
    [determine_step(dr, steplengths)] writes nothing; it returns [dr] itself
    when [mx < maxstep], and otherwise [dr] with every component multiplied
    by the one factor [maxstep / mx].  In both cases the result is a scalar
    multiple of [dr].  For a positive [maxstep] the factor is positive (the
    direction of the whole step is kept), the largest length in the result
    is at most [maxstep], and it is [maxstep] whenever [mx] exceeded it. *)
Theorem determine_step_caps_the_step (w : World R A) (dr : mat R) :
  dr <> [] ->
  exists mx,
    is_max mx (map ssqrt (row_sumsq dr))
    /\ (mx < maxstep (core w) ->
        determine_step dr (map ssqrt (row_sumsq dr)) w = (Ok dr, w))
    /\ (maxstep (core w) <= mx ->
        determine_step dr (map ssqrt (row_sumsq dr)) w
        = (Ok (mscale dr (maxstep (core w) / mx)), w))
    /\ exists dr' c,
         determine_step dr (map ssqrt (row_sumsq dr)) w = (Ok dr', w)
         /\ dr' = mscale dr c
         /\ (0 < maxstep (core w) ->
             0 < c
             /\ exists mx',
                  is_max mx' (map ssqrt (row_sumsq dr'))
                  /\ mx' <= maxstep (core w)
                  /\ (maxstep (core w) < mx -> mx' = maxstep (core w))).
Proof.
  intros Hne.
  destruct (@vmax_is_max (map ssqrt (row_sumsq dr))) as (mx & E & Hmx).
  { destruct dr; [congruence|discriminate]. }
  exists mx. split; [exact Hmx|]. split; [|split].
  - intros Hlt. eapply determine_step_below; eauto.
  - intros Hle. eapply determine_step_reached; eauto.
  - destruct (Rlt_dec mx (maxstep (core w))) as [Hlt|Hge].
    + exists dr, 1. split; [eapply determine_step_below; eauto|].
      split; [now rewrite mscale_one|].
      intros _. split; [lra|].
      exists mx. split; [exact Hmx|]. split; lra.
    + apply Rnot_lt_le in Hge.
      exists (mscale dr (maxstep (core w) / mx)), (maxstep (core w) / mx).
      split; [eapply determine_step_reached; eauto|]. split; [reflexivity|].
      intros Hpos.
      assert (Hmxpos : 0 < mx) by lra.
      assert (Hkpos : 0 < maxstep (core w) / mx)
        by (apply Rdiv_lt_0_compat; lra).
      assert (Hk : 0 <= maxstep (core w) / mx) by lra.
      split; [exact Hkpos|].
      exists (maxstep (core w)).
      split; [|split; [lra|reflexivity]].
      rewrite steplengths_scale, (Rabs_pos_eq _ Hk).
      assert (Em : maxstep (core w) / mx * mx = maxstep (core w))
        by (field; lra).
      pose proof (is_max_scale Hk Hmx) as Hs.
      rewrite Em in Hs. exact Hs.
Qed.

End Capping.

(* ================================================================== *)
(** ** The first step of a single particle *)

Section SingleParticle.
Context {A : Type} {AT : AtomsAPI R A}.
Local Open Scope R_scope.

Lemma list3_inv (X : Type) (l : list X) :
  length l = 3%nat -> exists a b c, l = [a; b; c].
Proof.
  destruct l as [|a [|b [|c [|d l]]]]; simpl; intros E;
    try discriminate. eauto.
Qed.

Lemma mat33_inv (V : mat R) :
  mat_shape 3 3 V ->
  exists a b c d e f g h i, V = [[a; b; c]; [d; e; f]; [g; h; i]].
Proof.
  intros [Hn Hr]. destruct (@list3_inv _ V Hn) as (r1 & r2 & r3 & ->).
  inversion Hr as [|? ? E1 Hr']; subst.
  inversion Hr' as [|? ? E2 Hr'']; subst.
  inversion Hr'' as [|? ? E3 _]; subst.
  destruct (@list3_inv _ _ E1) as (a & b & c & ->).
  destruct (@list3_inv _ _ E2) as (d & e & f & ->).
  destruct (@list3_inv _ _ E3) as (g & h & i & ->).
  repeat eexists.
Qed.

Lemma alpha70_identity :
  mscale (eye 3) 70 = [[70; 0; 0]; [0; 70; 0]; [0; 0; 70]].
Proof.
  cbv [mscale eye map seq Nat.eqb smul sone szero R_Scalar].
  repeat (f_equal; try lra).
Qed.

(** A unit eigenvector of [70 * I] has the eigenvalue 70. *)
Lemma eigenvalue_70 (o a d g : R) :
  0 + a * a + d * d + g * g = 1 ->
  0 + 70 * a + 0 * d + 0 * g = o * a ->
  0 + 0 * a + 70 * d + 0 * g = o * d ->
  0 + 0 * a + 0 * d + 70 * g = o * g ->
  o = 70.
Proof.
  intros C Ea Ed Eg.
  assert (E : o * (0 + a * a + d * d + g * g)
              = 70 * (0 + a * a + d * d + g * g)).
  { transitivity (a * (o * a) + d * (o * d) + g * (o * g)); [ring|].
    rewrite <- Ea, <- Ed, <- Eg. ring. }
  rewrite C in E. lra.
Qed.

Ltac unfold_tensors_in E :=
  cbv [dot col vsum zipWith fold_left map nth Nat.eqb entry
       smul sadd szero sone R_Scalar] in E.

(** With [H = 70 * I] the Newton step is the force over 70, whichever
    eigenvectors the eigensolver chose. *)
Lemma newton_step_alpha70 (omega : vec R) (V : mat R) (f1 f2 f3 : R) :
  is_symeig 3 [[70; 0; 0]; [0; 70; 0]; [0; 0; 70]] omega V ->
  matvec V (vdiv (vecmat [f1; f2; f3] V) (vabs omega))
  = [f1 / 70; f2 / 70; f3 / 70].
Proof.
  intros (Lo & SV & Hcol & Hrow & Heig).
  destruct (@list3_inv _ _ Lo) as (o1 & o2 & o3 & ->).
  destruct (@mat33_inv _ SV) as (a & b & c & d & e & f & g & h & i & ->).
  assert (O1 : o1 = 70).
  { apply (@eigenvalue_70 o1 a d g).
    - exact (Hcol 0 0 ltac:(lia) ltac:(lia))%nat.
    - exact (Heig 0 0 ltac:(lia) ltac:(lia))%nat.
    - exact (Heig 1 0 ltac:(lia) ltac:(lia))%nat.
    - exact (Heig 2 0 ltac:(lia) ltac:(lia))%nat. }
  assert (O2 : o2 = 70).
  { apply (@eigenvalue_70 o2 b e h).
    - exact (Hcol 1 1 ltac:(lia) ltac:(lia))%nat.
    - exact (Heig 0 1 ltac:(lia) ltac:(lia))%nat.
    - exact (Heig 1 1 ltac:(lia) ltac:(lia))%nat.
    - exact (Heig 2 1 ltac:(lia) ltac:(lia))%nat. }
  assert (O3 : o3 = 70).
  { apply (@eigenvalue_70 o3 c f i).
    - exact (Hcol 2 2 ltac:(lia) ltac:(lia))%nat.
    - exact (Heig 0 2 ltac:(lia) ltac:(lia))%nat.
    - exact (Heig 1 2 ltac:(lia) ltac:(lia))%nat.
    - exact (Heig 2 2 ltac:(lia) ltac:(lia))%nat. }
  subst o1 o2 o3.
  pose proof (Hrow 0 0 ltac:(lia) ltac:(lia))%nat as R00.
  pose proof (Hrow 0 1 ltac:(lia) ltac:(lia))%nat as R01.
  pose proof (Hrow 0 2 ltac:(lia) ltac:(lia))%nat as R02.
  pose proof (Hrow 1 1 ltac:(lia) ltac:(lia))%nat as R11.
  pose proof (Hrow 1 2 ltac:(lia) ltac:(lia))%nat as R12.
  pose proof (Hrow 2 2 ltac:(lia) ltac:(lia))%nat as R22.
  unfold_tensors_in R00. unfold_tensors_in R01. unfold_tensors_in R02.
  unfold_tensors_in R11. unfold_tensors_in R12. unfold_tensors_in R22.
  cbv [matvec vdiv vecmat vabs ncols hd length dot col vsum zipWith
       fold_left map nth seq smul sadd sdiv sabs szero R_Scalar].
  rewrite (Rabs_pos_eq 70) by lra.
  f_equal; [|f_equal; [|f_equal]].
  - transitivity ((f1 * (0 + a * a + b * b + c * c)
                   + f2 * (0 + a * d + b * e + c * f)
                   + f3 * (0 + a * g + b * h + c * i)) / 70); [field|].
    rewrite R00, R01, R02. field.
  - transitivity ((f1 * (0 + a * d + b * e + c * f)
                   + f2 * (0 + d * d + e * e + f * f)
                   + f3 * (0 + d * g + e * h + f * i)) / 70); [field|].
    rewrite R01, R11, R12. field.
  - transitivity ((f1 * (0 + a * g + b * h + c * i)
                   + f2 * (0 + d * g + e * h + f * i)
                   + f3 * (0 + g * g + h * h + i * i)) / 70); [field|].
    rewrite R02, R12, R22. field.
Qed.

Lemma steplength_1_over_70 :
  map ssqrt (row_sumsq [[0; 0; -1 / 70]]) = [1 / 70].
Proof.
  cbv [row_sumsq map vsum fold_left ssq ssqrt smul sadd szero R_Scalar].
  f_equal.
  replace (0 + 0 * 0 + 0 * 0 + -1 / 70 * (-1 / 70))
    with ((1 / 70) * (1 / 70)) by field.
  apply sqrt_square. lra.
Qed.

(** C7. One particle at the origin with force [(0, 0, -1)], [alpha = 70]
    and [maxstep = 0.04].  Whatever eigendecomposition of [70 * I] the
    eigensolver returns, the first [step()] returns normally; it sets [H] to
    [70] times the [3 x 3] identity; the raw displacement is
    [(0, 0, -1/70)], of length [1/70], which is below [maxstep], so that it
    is not rescaled; and the position written to the external system is
    [(0, 0, -1/70)].  The snapshot becomes the position and force read. *)
Theorem first_step_single_particle
    (a : A) (symeig : mat R -> vec R * mat R) (fm : R) :
  atoms_len a = 1%nat ->
  atoms_get_positions a = [[0; 0; 0]] ->
  atoms_get_forces a = [[0; 0; -1]] ->
  is_symeig 3 [[70; 0; 0]; [0; 70; 0]; [0; 0; 70]]
            (fst (symeig (mscale (eye 3) 70)))
            (snd (symeig (mscale (eye 3) 70))) ->
  let omega := fst (symeig (mscale (eye 3) 70)) in
  let V := snd (symeig (mscale (eye 3) 70)) in
  mscale (eye 3) 70 = [[70; 0; 0]; [0; 70; 0]; [0; 0; 70]]
  /\ matvec V (vdiv (vecmat [0; 0; -1] V) (vabs omega)) = [0; 0; -1 / 70]
  /\ map ssqrt (row_sumsq [[0; 0; -1 / 70]]) = [1 / 70]
  /\ 1 / 70 < 0.04
  /\ step symeig (init a 0.04 fm 70)
     = (Ok tt,
        mkWorld
          (mkBFGS 0.04 true [[70; 0; 0]; [0; 70; 0]; [0; 0; 70]]
                  (Some [0; 0; 0]) (Some [0; 0; -1]) fm 0%Z 100000000%Z)
          (atoms_set_positions [[0; 0; -1 / 70]] a)
          [] []).
Proof.
  intros Hlen Hpos Hfor Heig omega V.
  assert (Eraw : matvec V (vdiv (vecmat [0; 0; -1] V) (vabs omega))
                 = [0; 0; -1 / 70]).
  { rewrite (@newton_step_alpha70 omega V 0 0 (-1) Heig).
    repeat (f_equal; try lra). }
  split; [apply alpha70_identity|]. split; [exact Eraw|].
  split; [apply steplength_1_over_70|]. split; [lra|].
  unfold step, get_positions, get_forces, update, init.
  unfold bind, gets, modify, unwrap, ret, raise.
  cbn [core atoms H H_bound H0 r0 f0 with_core bind_H].
  rewrite Hpos, Hfor, Hlen.
  change (mscale (eye (3 * 1)) 70) with (mscale (eye 3) 70).
  fold omega V in Eraw.
  destruct (symeig (mscale (eye 3) 70)) as [omega' V'] eqn:Es.
  cbn [fst snd] in omega, V. subst omega V.
  cbn [flatten concat app]. rewrite Eraw. cbn [view3].
  rewrite steplength_1_over_70.
  erewrite determine_step_below;
    [|reflexivity|cbn [core maxstep with_core bind_H fold_left]; lra].
  unfold set_positions, get_positions.
  unfold bind, gets, modify.
  cbn [core atoms with_core with_atoms bind_H set_snapshot
       maxstep H_bound H0 r0 f0 fmax nsteps max_steps warnings printed].
  rewrite Hpos, alpha70_identity.
  assert (Ew : (0.04 [>] sone) = false)
    by (unfold sgtb; simpl; apply Rltb_false; lra).
  rewrite Ew.
  assert (Em : madd [[0; 0; 0]] [[0; 0; -1 / 70]] = [[0; 0; -1 / 70]]).
  { cbv [madd combine map vadd zipWith fst snd sadd R_Scalar].
    repeat (f_equal; try lra). }
  rewrite Em. reflexivity.
Qed.

End SingleParticle.

(* ================================================================== *)
(** ** Division by zero in the update *)

(** C8. [update] divides by [a = dr.df] and by [b = dr.dg] without testing
    them: in every number system, once the tolerance test is passed the call
    returns normally with the correction subtracted from [H].  In binary64
    there is an input that passes the tolerance test (the largest component
    of [|dr|] is 1) with [a = 0]; the call returns normally, raising
    nothing, and the [H] it leaves holds not-a-number in eight entries and
    minus infinity in the ninth. *)
Theorem update_divides_by_zero_unguarded :
  (forall (T : Type) (ST : Scalar T) (A : Type) (w : World T A)
          (h : mat T) (r f r0v f0v : vec T) (m : T),
      H (core w) = Some h ->
      vmax (vabs (vsub r r0v)) = Some m ->
      (m [<] s1em7) = false ->
      update r f (Some r0v) (Some f0v) w
      = (Ok tt, with_core (isub_H (correction h r f r0v f0v)) w))
  /\
  (let r := [1; 0; 0]%float in
   let f := [0; 0; 0]%float in
   let r0v := [0; 0; 0]%float in
   let f0v := [0; 0; -1]%float in
   H (core world_f) = Some [[70; 0; 0]; [0; 70; 0]; [0; 0; 70]]%float
   /\ vmax (vabs (vsub r r0v)) = Some 1%float
   /\ (1%float [>=] s1em7) = true
   /\ dot (vsub r r0v) (vsub f f0v) = 0%float
   /\ exists w',
        update r f (Some r0v) (Some f0v) world_f = (Ok tt, w')
        /\ H (core w')
           = Some [[nan; nan; nan]; [nan; nan; nan];
                   [nan; nan; neg_infinity]]%float).
Proof.
  split.
  - intros T ST A w h r f r0v f0v m E Em Hlt.
    unfold correction. eapply update_proper; eauto.
  - cbv zeta. repeat split; try (vm_compute; reflexivity).
    eexists. split; vm_compute; reflexivity.
Qed.

(* ================================================================== *)
(** ** The properties at sample inputs *)

(** A proper update evaluated in binary64. *)
Lemma update_rank_two_binary64_example :
  exists w',
    update [1; 0; 0]%float [-1; 0; -1]%float
           (Some [0; 0; 0]%float) (Some [0; 0; -1]%float) world_f
    = (Ok tt, w')
    /\ H (core w') = Some [[1; 0; 0]; [0; 70; 0]; [0; 0; 70]]%float.
Proof.
  destruct (@update_rank_two_any_scalar
              float float_Scalar (Sys float) float_geb_excludes_ltb world_f
              (mscale (eye 3) 70%float)
              [1; 0; 0]%float [-1; 0; -1]%float
              [0; 0; 0]%float [0; 0; -1]%float 3 1%float)
    as (w' & Eu & _ & EH & _).
  - reflexivity.
  - split; [reflexivity|repeat constructor].
  - reflexivity.
  - reflexivity.
  - reflexivity.
  - reflexivity.
  - vm_compute; reflexivity.
  - vm_compute; reflexivity.
  - exists w'. split; [exact Eu|].
    rewrite EH. vm_compute. reflexivity.
Qed.

Lemma determine_step_caps_the_step_witness :
  exists dr' c,
    determine_step [[0; 0; -1]]%R
                   (map ssqrt (row_sumsq [[0; 0; -1]]%R)) world_R
    = (Ok dr', world_R)
    /\ dr' = mscale [[0; 0; -1]]%R c.
Proof.
  destruct (@determine_step_caps_the_step (Sys R) world_R [[0; 0; -1]]%R)
    as (mx & _ & _ & _ & dr' & c & E & Edr & _).
  - discriminate.
  - exists dr', c. split; assumption.
Defined.

Lemma degenerate_update_keeps_H_witness :
  update [0; 0; 0]%R [0; 0; -1]%R (Some [0; 0; 0]%R) None world_R
  = (Ok tt, world_R).
Proof.
  apply (proj1 (@degenerate_update_keeps_H (Sys R) _) world_R
               (mscale (eye 3) 70%R) [0; 0; 0]%R [0; 0; -1]%R [0; 0; 0]%R
               None 0%R).
  - reflexivity.
  - reflexivity.
  - apply vmax_zeros; [discriminate|apply vsub_self_abs].
  - lra.
Defined.

Lemma eig_alpha70_is_symeig :
  is_symeig 3 [[70; 0; 0]; [0; 70; 0]; [0; 0; 70]]%R
            (fst (eig_alpha70 (mscale (eye 3) 70%R)))
            (snd (eig_alpha70 (mscale (eye 3) 70%R))).
Proof.
  unfold eig_alpha70; simpl fst; simpl snd.
  split; [reflexivity|]. split; [apply eye_shape|].
  repeat split; intros i j Hi Hj;
    destruct i as [|[|[|i]]]; try lia;
    destruct j as [|[|[|j]]]; try lia;
    cbv [dot col vsum zipWith fold_left map nth Nat.eqb entry eye seq
         smul sadd szero sone R_Scalar]; lra.
Qed.

Lemma first_step_single_particle_witness :
  step eig_alpha70 (init sys_R 0.04%R 0.05%R 70%R)
  = (Ok tt,
     mkWorld
       (mkBFGS 0.04%R true [[70; 0; 0]; [0; 70; 0]; [0; 0; 70]]%R
               (Some [0; 0; 0]%R) (Some [0; 0; -1]%R) 0.05%R
               0%Z 100000000%Z)
       (atoms_set_positions [[0; 0; -1 / 70]]%R sys_R)
       [] []).
Proof.
  apply (@first_step_single_particle (Sys R) _ sys_R eig_alpha70 0.05%R).
  - reflexivity.
  - reflexivity.
  - reflexivity.
  - exact eig_alpha70_is_symeig.
Defined.

Lemma init_warns_exactly_above_one_witness :
  warnings (init sys_R 2%R 0.05%R 70%R) = [MaxstepTooLarge 2%R]
  /\ warnings (init sys_R 0.04%R 0.05%R 70%R) = [].
Proof.
  destruct (@init_warns_exactly_above_one (Sys R) _ sys_R 2%R 0.05%R 70%R)
    as (_ & Hwarn & _).
  destruct (@init_warns_exactly_above_one (Sys R) _ sys_R 0.04%R 0.05%R 70%R)
    as (_ & _ & Hquiet).
  split; [apply Hwarn|apply Hquiet]; lra.
Defined.

(** The single-particle step evaluated in binary64: the position written is
    the double nearest to [-1/70]. *)
Lemma first_step_single_particle_binary64 :
  let a := mkSys [[0; 0; 0]]%float (fun _ => [[0; 0; -1]]%float) in
  let eig := fun _ : mat float => ([70; 70; 70]%float, eye 3) in
  let out := step eig (init a 0x1.47ae147ae147bp-5%float
                           0x1.999999999999ap-5%float 70%float) in
  fst out = Ok tt
  /\ H (core (snd out)) = Some [[70; 0; 0]; [0; 70; 0]; [0; 0; 70]]%float
  /\ sys_positions (atoms (snd out))
     = [[0; 0; (-1 / 70)]]%float.
Proof. cbv zeta. repeat split; vm_compute; reflexivity. Qed.

(** The threshold is the stored [fmax], in binary64 as well: under the force
    [(0, 0, -1)], an object storing [fmax = 2] has converged, and [run]
    makes no step though its argument is [0]. *)
Lemma run_uses_stored_fmax_binary64 :
  let a := mkSys [[0; 0; 0]]%float (fun _ => [[0; 0; -1]]%float) in
  let eig := fun _ : mat float => ([70; 70; 70]%float, eye 3) in
  let obj :=
    mkWorld (mkBFGS 0x1.47ae147ae147bp-5%float false
                    (mscale (eye 3) 70%float) None None 2%float 0%Z 3%Z)
            a [] [] in
  run eig 0%float obj = (Ok tt, obj).
Proof. cbv zeta. vm_compute. reflexivity. Qed.

(* ================================================================== *)
(** * Further properties of the class *)

(** ** The secant equation *)

Section Secant.
Context {A : Type}.
Local Open Scope R_scope.

Lemma dot_cons (x y : R) (u v : vec R) :
  dot (x :: u) (y :: v) = x * y + dot u v.
Proof.
  unfold dot, vsum. simpl. rewrite fold_Rplus_acc. lra.
Qed.

Lemma dot_nil_l (v : vec R) : dot [] v = 0.
Proof. reflexivity. Qed.

Lemma dot_nil_r (u : vec R) : dot u [] = 0.
Proof. destruct u; reflexivity. Qed.

Lemma dot_comm (u : vec R) : forall v, dot u v = dot v u.
Proof.
  induction u as [|x u IH]; intros [|y v];
    rewrite ?dot_nil_l, ?dot_nil_r, ?dot_cons; auto.
  rewrite IH. lra.
Qed.

Lemma dot_zip_l (op : R -> R -> R) (u : vec R) :
  (forall x y z, op x y * z = op (x * z) (y * z)) ->
  op 0 0 = 0 ->
  (forall p q p' q', op (p + p') (q + q') = op p q + op p' q') ->
  forall v w, length u = length v ->
    dot (zipWith op u v) w = op (dot u w) (dot v w).
Proof.
  intros Hmul H00 Hadd.
  induction u as [|x u IH]; intros [|y v] [|z w] E; simpl in E;
    try discriminate; simpl zipWith;
    rewrite ?dot_nil_l, ?dot_nil_r, ?dot_cons; auto.
  rewrite IH by lia. rewrite Hadd, Hmul. reflexivity.
Qed.

Lemma dot_vsub_l (u v w : vec R) :
  length u = length v -> dot (vsub u v) w = dot u w - dot v w.
Proof.
  intros E. unfold vsub.
  apply (@dot_zip_l Rminus u); simpl; auto; intros; lra.
Qed.

Lemma dot_vadd_l (u v w : vec R) :
  length u = length v -> dot (vadd u v) w = dot u w + dot v w.
Proof.
  intros E. unfold vadd.
  apply (@dot_zip_l Rplus u); simpl; auto; intros; lra.
Qed.

Lemma dot_map_l (g : R -> R) (k : R) (u : vec R) :
  (forall x, g x = k * x) ->
  forall w, dot (map g u) w = k * dot u w.
Proof.
  intros Hg. induction u as [|x u IH]; intros [|z w]; simpl map;
    rewrite ?dot_nil_l, ?dot_nil_r, ?dot_cons; try lra.
  rewrite IH, Hg. lra.
Qed.

(** Row [i] of the correction. *)
Lemma correction_row (n : nat) (df dg : vec R) (a b : R) (i : nat) :
  length df = n -> length dg = n -> (i < n)%nat ->
  nth i (madd (mdivs (ger df df) a) (mdivs (ger dg dg) b)) []
  = vadd (map (fun x => x / a) (map (fun y => nth i df 0 * y) df))
         (map (fun x => x / b) (map (fun y => nth i dg 0 * y) dg)).
Proof.
  intros Ldf Ldg Hi. unfold madd, mdivs, ger.
  rewrite (map_nth_in _ _ ([], []) [])
    by (rewrite length_combine, !length_map; lia).
  rewrite combine_nth_in by (rewrite !length_map; lia).
  simpl fst; simpl snd.
  rewrite !(map_nth_in _ _ [] []) by (rewrite ?length_map; lia).
  rewrite !(map_nth_in _ _ 0 []) by lia.
  reflexivity.
Qed.

(** The matrix left by a proper update maps the step [dr] to minus the
    change of the force. *)
Lemma corrected_matrix_secant (n : nat) (h : mat R) (r f r0v f0v : vec R) :
  mat_shape n n h ->
  length r = n -> length r0v = n -> length f = n -> length f0v = n ->
  dot (vsub r r0v) (vsub f f0v) <> 0 ->
  dot (vsub r r0v) (matvec h (vsub r r0v)) <> 0 ->
  matvec (msub h (correction h r f r0v f0v)) (vsub r r0v)
  = map Ropp (vsub f f0v).
Proof.
  intros Sh Lr Lr0 Lf Lf0 Ha Hb. unfold correction.
  set (dr := vsub r r0v) in *. set (df := vsub f f0v) in *.
  set (dg := matvec h dr) in *.
  set (a := dot dr df) in *. set (b := dot dr dg) in *.
  assert (Ldr : length dr = n)
    by (unfold dr, vsub; rewrite zipWith_length; lia).
  assert (Ldf : length df = n)
    by (unfold df, vsub; rewrite zipWith_length; lia).
  assert (Ldg : length dg = n)
    by (unfold dg; rewrite matvec_length; apply Sh).
  pose proof (@correction_shape _ _ n df dg a b Ldf Ldg) as Sval.
  pose proof (msub_shape Sh Sval) as Sh'.
  apply (nth_ext _ _ 0 0).
  - rewrite matvec_length, length_map. destruct Sh' as [-> _]. lia.
  - intros i Hi. rewrite matvec_length in Hi.
    destruct Sh' as [Ln' _]. rewrite Ln' in Hi.
    unfold matvec at 1.
    rewrite (map_nth_in _ _ [] 0) by lia.
    rewrite (map_nth_in Ropp df 0 0) by lia.
    unfold msub.
    rewrite (map_nth_in _ _ ([], []) [])
      by (rewrite length_combine; destruct Sh, Sval; lia).
    rewrite combine_nth_in by (destruct Sh, Sval; lia).
    simpl fst; simpl snd.
    rewrite dot_vsub_l
      by (rewrite (mat_shape_row Sh Hi), (mat_shape_row Sval Hi); auto).
    rewrite (@correction_row n) by auto.
    rewrite dot_vadd_l by (rewrite !length_map; lia).
    rewrite !map_map.
    rewrite (@dot_map_l _ (nth i df 0 / a) df)
      by (intros x; unfold Rdiv; ring).
    rewrite (@dot_map_l _ (nth i dg 0 / b) dg)
      by (intros x; unfold Rdiv; ring).
    replace (dot (nth i h []) dr) with (nth i dg 0)
      by (unfold dg, matvec; now rewrite (map_nth_in _ _ [] 0)
            by (destruct Sh; lia)).
    rewrite (dot_comm df dr), (dot_comm dg dr). fold a b.
    field. auto.
Qed.
End Secant.

(** ** How a step ends *)

Section StepEnds.
Context {T : Type} {ST : Scalar T} {A : Type} {AT : AtomsAPI T A}.
Variable symeig : mat T -> vec T * mat T.

(** A step that returns normally has run all of its stages. *)
Lemma step_ok_inv (w w2 : World T A) :
  step symeig w = (Ok tt, w2) ->
  let arg1 := flatten (atoms_get_positions (atoms w)) in
  let arg2 := flatten (atoms_get_forces (atoms w)) in
  exists wu h dr1 dr',
    update arg1 arg2 (r0 (core w)) (f0 (core w)) w = (Ok tt, wu)
    /\ H (core wu) = Some h
    /\ view3 (raw_step symeig h arg2) = Some dr1
    /\ determine_step dr1 (map ssqrt (row_sumsq dr1)) wu = (Ok dr', wu)
    /\ w2 = with_core (set_snapshot arg1 arg2)
              (with_atoms
                 (atoms_set_positions
                    (madd (atoms_get_positions (atoms w)) dr'))
                 wu).
Proof.
  intros E arg1 arg2.
  unfold step, get_positions, get_forces in E.
  unfold bind at 1 2 3 4 in E. unfold gets at 1 2 3 in E. simpl in E.
  fold arg1 arg2 in E.
  destruct (update arg1 arg2 (r0 (core w)) (f0 (core w)) w)
    as [[[]|e] wu] eqn:Eu; [|discriminate].
  pose proof (update_frame _ _ _ _ _ Eu) as (Fa & _).
  unfold bind at 1 2 in E. unfold gets at 1 in E. simpl in E.
  destruct (H (core wu)) as [h|] eqn:Eh; simpl in E; [|discriminate].
  destruct (symeig h) as [omega1 V1] eqn:Es.
  unfold bind at 1 in E.
  destruct (view3 (matvec V1 (vdiv (vecmat arg2 V1) (vabs omega1))))
    as [dr1|] eqn:Ev; simpl in E; [|discriminate].
  unfold bind at 1 in E.
  destruct (determine_step dr1 (map ssqrt (row_sumsq dr1)) wu)
    as [[dr'|e] wd] eqn:Ed; [|discriminate].
  pose proof (determine_step_frame _ _ _ Ed) as [-> _].
  exists wu, h, dr1, dr'.
  split; [reflexivity|]. split; [exact Eh|].
  split; [unfold raw_step; rewrite Es; exact Ev|].
  split; [exact Ed|].
  unfold set_positions, get_positions in E.
  revert E; run_monad; intros E. inversion E. now rewrite Fa.
Qed.

(** A step that raises stops with the state its [update] call left: no
    position is written, the snapshot is not replaced, nothing is printed;
    the exception is a [TypeError] or a [RuntimeError]. *)
Lemma step_raise_inv (w w2 : World T A) (e : exn) :
  step symeig w = (Raise e, w2) ->
  (e = TypeError \/ e = RuntimeError)
  /\ exists resu,
       update (flatten (atoms_get_positions (atoms w)))
              (flatten (atoms_get_forces (atoms w)))
              (r0 (core w)) (f0 (core w)) w = (resu, w2).
Proof.
  intros E.
  unfold step, get_positions, get_forces in E.
  unfold bind at 1 2 3 4 in E. unfold gets at 1 2 3 in E. simpl in E.
  set (arg1 := flatten (atoms_get_positions (atoms w))) in *.
  set (arg2 := flatten (atoms_get_forces (atoms w))) in *.
  destruct (update arg1 arg2 (r0 (core w)) (f0 (core w)) w)
    as [resu wu] eqn:Eu.
  assert (Etail : w2 = wu /\ (e = TypeError \/ e = RuntimeError)).
  { destruct resu as [[]|e'].
    - unfold set_positions, get_positions, determine_step in E.
      revert E; run_monad; intros E.
      split_matches E; inversion E; subst; auto.
    - inversion E; subst. apply update_raise in Eu as [_ He]. auto. }
  destruct Etail as [-> He]. split; [exact He|]. now exists resu.
Qed.

End StepEnds.

(** ** Properties of [update] and [determine_step] in exact arithmetic *)

Section ExactExtras.
Context {A : Type}.
Local Open Scope R_scope.

(** X1. The secant equation.  When [H] is set, the step [dr = r - r0] is not
    degenerate and neither [a = dr.df] nor [b = dr.(H dr)] is zero, the
    matrix [H'] that [update] leaves satisfies [H' dr = -(f - f0)]: the new
    matrix maps the step made to the change of the gradient (the forces
    being minus the gradient). *)
Theorem update_satisfies_secant_equation
    (w : World R A) (h : mat R) (r f r0v f0v : vec R) (n : nat) (m : R) :
  H (core w) = Some h -> mat_shape n n h ->
  length r = n -> length r0v = n -> length f = n -> length f0v = n ->
  vmax (vabs (vsub r r0v)) = Some m -> 1e-7 <= m ->
  dot (vsub r r0v) (vsub f f0v) <> 0 ->
  dot (vsub r r0v) (matvec h (vsub r r0v)) <> 0 ->
  exists w' h',
    update r f (Some r0v) (Some f0v) w = (Ok tt, w')
    /\ H (core w') = Some h'
    /\ matvec h' (vsub r r0v) = map Ropp (vsub f f0v).
Proof.
  intros E Sh Lr Lr0 Lf Lf0 Em Hm Ha Hb.
  exists (with_core (isub_H (correction h r f r0v f0v)) w),
         (msub h (correction h r f r0v f0v)).
  split; [|split].
  - unfold correction. eapply update_proper; eauto.
    simpl. now apply Rltb_false.
  - apply H_Some in E as [Eb E0]. unfold H; simpl. now rewrite Eb, E0.
  - now apply (@corrected_matrix_secant n).
Qed.


(** What [determine_step] returns, for a positive [maxstep]: either [dr]
    itself, whose lengths are below [maxstep], or the scaled [dr], whose
    largest length is [maxstep]. *)
Lemma determine_step_outcome (w w' : World R A) (dr dr' : mat R) :
  0 < maxstep (core w) ->
  determine_step dr (map ssqrt (row_sumsq dr)) w = (Ok dr', w') ->
  w' = w
  /\ exists mx,
       is_max mx (map ssqrt (row_sumsq dr))
       /\ ((mx < maxstep (core w) /\ dr' = dr)
           \/ (maxstep (core w) <= mx
               /\ dr' = mscale dr (maxstep (core w) / mx)
               /\ is_max (maxstep (core w)) (map ssqrt (row_sumsq dr')))).
Proof.
  intros Hpos E.
  destruct (vmax (map ssqrt (row_sumsq dr))) as [mx|] eqn:Emx.
  2:{ unfold determine_step, bind, unwrap in E. rewrite Emx in E.
      discriminate. }
  pose proof (vmax_Some_is_max _ Emx) as Hmx.
  destruct (Rlt_dec mx (maxstep (core w))) as [Hlt|Hge].
  - rewrite (determine_step_below w dr _ Emx Hlt) in E.
    injection E as Edr Ew. subst dr' w'.
    split; [reflexivity|]. exists mx. auto.
  - apply Rnot_lt_le in Hge.
    rewrite (determine_step_reached w dr _ Emx Hge) in E.
    injection E as Edr Ew. subst dr' w'.
    split; [reflexivity|]. exists mx.
    split; [exact Hmx|]. right. split; [exact Hge|]. split; [reflexivity|].
    assert (Hmxpos : 0 < mx) by lra.
    assert (Hk : 0 <= maxstep (core w) / mx)
      by (apply Rlt_le, Rdiv_lt_0_compat; lra).
    assert (Em : maxstep (core w) / mx * mx = maxstep (core w))
      by (field; lra).
    rewrite steplengths_scale, (Rabs_pos_eq _ Hk).
    pose proof (is_max_scale Hk Hmx) as Hs.
    rewrite Em in Hs. exact Hs.
Qed.

(** X3. Capping is idempotent.  For a positive [maxstep], capping a step
    that [determine_step] has already capped (with its lengths computed
    anew) returns it unchanged. *)
Theorem determine_step_idempotent (w : World R A) (dr dr' : mat R) :
  0 < maxstep (core w) ->
  determine_step dr (map ssqrt (row_sumsq dr)) w = (Ok dr', w) ->
  determine_step dr' (map ssqrt (row_sumsq dr')) w = (Ok dr', w).
Proof.
  intros Hpos E.
  destruct (@determine_step_outcome w w dr dr' Hpos E)
    as (_ & mx & Hmx & [[Hlt ->]|(Hge & Edr & Hmax')]).
  - exact E.
  - destruct (@vmax_is_max (map ssqrt (row_sumsq dr')))
      as (mx' & Emx' & Hmx').
    { destruct Hmax' as [Hin _]. intros Enil. rewrite Enil in Hin.
      destruct Hin. }
    pose proof (is_max_unique Hmx' Hmax') as ->.
    rewrite (determine_step_reached w dr' _ Emx' (Rle_refl _)).
    replace (maxstep (core w) / maxstep (core w)) with 1 by (field; lra).
    now rewrite mscale_one.
Qed.

End ExactExtras.

(** ** Steps: what is written, and when *)

Section StepExtras.
Context {T : Type} {ST : Scalar T} {A : Type} {AT : AtomsAPI T A}.
Variable symeig : mat T -> vec T * mat T.

(** X4. A step is all or nothing for the snapshot and the positions.  A
    step that returns normally has replaced [r0] and [f0], together, by the
    flattened positions and forces it read.  A step that raises (it can
    only raise [TypeError] or [RuntimeError]) has written no position, has
    left [r0] and [f0] as they were and has printed nothing.  In both cases
    [maxstep], [fmax], [nsteps] and [max_steps] are untouched. *)
Theorem step_snapshot_all_or_nothing (w : World T A) :
  let out := step symeig w in
  maxstep (core (snd out)) = maxstep (core w)
  /\ fmax (core (snd out)) = fmax (core w)
  /\ nsteps (core (snd out)) = nsteps (core w)
  /\ max_steps (core (snd out)) = max_steps (core w)
  /\ match fst out with
     | Ok _ =>
         r0 (core (snd out))
         = Some (flatten (atoms_get_positions (atoms w)))
         /\ f0 (core (snd out))
            = Some (flatten (atoms_get_forces (atoms w)))
     | Raise e =>
         (e = TypeError \/ e = RuntimeError)
         /\ atoms (snd out) = atoms w
         /\ r0 (core (snd out)) = r0 (core w)
         /\ f0 (core (snd out)) = f0 (core w)
         /\ printed (snd out) = printed w
     end.
Proof.
  intros out. destruct (step symeig w) as [res w2] eqn:E.
  subst out. simpl fst; simpl snd.
  pose proof E as E'. apply step_inv in E' as
    (resu & wu & _ & _ & _ & Hn & Hmx & Hfm & Hms & _ & Hok).
  repeat (split; [assumption|]).
  destruct res as [[]|e].
  - destruct (Hok eq_refl) as (_ & Er0 & Ef0). auto.
  - apply step_raise_inv in E as (He & resu' & Eu).
    apply update_frame in Eu as (Fa & _ & Fp & Fr & Ff & _). auto.
Qed.

(** With [H] set and no snapshot, a step raises [TypeError] at once and
    changes nothing. *)
Lemma step_without_snapshot (w : World T A) (h : mat T) :
  H (core w) = Some h -> r0 (core w) = None ->
  step symeig w = (Raise TypeError, w).
Proof.
  intros Eh Er. unfold step, get_positions, get_forces, update.
  unfold bind, gets, unwrap, raise. simpl. rewrite Eh, Er. reflexivity.
Qed.

(** X5. A first step that fails blocks the object.  If the first [step()]
    of a freshly constructed object raises, it has bound [H] to
    [eye(3N) * alpha] but taken no snapshot; from then on every [step()],
    whatever the external system has become, raises [TypeError] and changes
    nothing. *)
Theorem failed_first_step_blocks_later_steps
    (a : A) (ms fm alpha : T) (e : exn) (w1 : World T A) :
  step symeig (init a ms fm alpha) = (Raise e, w1) ->
  H (core w1) = Some (mscale (eye (3 * atoms_len a)) alpha)
  /\ r0 (core w1) = None
  /\ forall w' : World T A,
       core w' = core w1 -> step symeig w' = (Raise TypeError, w').
Proof.
  intros E. apply step_raise_inv in E as (_ & resu & Eu).
  rewrite update_unset in Eu by reflexivity.
  injection Eu as _ <-. simpl.
  split; [reflexivity|]. split; [reflexivity|].
  intros w' Ecore.
  apply step_without_snapshot
    with (h := mscale (eye (3 * atoms_len a)) alpha);
    rewrite Ecore; reflexivity.
Qed.

(** X9. Without a particle nothing runs: when the external system reports
    no force, [converged()] raises [ValueError], and so does [run()],
    before any step and without changing anything. *)
Theorem run_on_empty_system_raises (fmax0 : T) (w : World T A) :
  atoms_get_forces (atoms w) = [] ->
  converged w = (Raise ValueError, w)
  /\ run symeig fmax0 w = (Raise ValueError, w).
Proof.
  intros Ef.
  assert (Ec : converged w = (Raise ValueError, w)).
  { unfold converged; run_monad. now rewrite Ef. }
  split; [exact Ec|]. unfold run.
  destruct (Z.to_nat (max_steps (core w) - nsteps (core w)));
    simpl; unfold bind at 1; now rewrite Ec.
Qed.

End StepExtras.

(** ** The driving loop *)

Section RunExtras.
Context {T : Type} {ST : Scalar T} {A : Type} {AT : AtomsAPI T A}.
Variable symeig : mat T -> vec T * mat T.

Lemma step_numbers_cons (n : Z) (k : nat) :
  step_numbers n (S k) = (n + 1)%Z :: step_numbers (n + 1) k.
Proof.
  unfold step_numbers. simpl. f_equal; [lia|].
  rewrite <- seq_shift, map_map. apply map_ext.
  intros i. lia.
Qed.

(** A step neither warns nor prints. *)
Lemma step_io_frame (w w2 : World T A) (res : res unit) :
  step symeig w = (res, w2) ->
  warnings w2 = warnings w /\ printed w2 = printed w.
Proof.
  intros E. destruct res as [[]|e].
  - apply step_ok_inv in E as (wu & h & dr1 & dr' & Eu & _ & _ & _ & ->).
    apply update_frame in Eu as (_ & Fw & Fp & _). simpl. auto.
  - apply step_raise_inv in E as (_ & resu & Eu).
    apply update_frame in Eu as (_ & Fw & Fp & _). auto.
Qed.

(** What the loop keeps, counts and prints, for any bound on its turns. *)
Lemma run_loop_spec (fuel : nat) :
  forall (w w' : World T A) (res : res unit),
    run_loop symeig fuel w = (res, w') ->
    max_steps (core w') = max_steps (core w)
    /\ fmax (core w') = fmax (core w)
    /\ maxstep (core w') = maxstep (core w)
    /\ warnings w' = warnings w
    /\ (nsteps (core w) <= nsteps (core w'))%Z
    /\ (nsteps (core w')
        <= Z.max (nsteps (core w)) (max_steps (core w)))%Z
    /\ (exists lines,
          printed w' = printed w ++ lines
          /\ map fst lines = step_numbers (nsteps (core w)) (length lines)
          /\ (res = Ok tt ->
              nsteps (core w')
              = (nsteps (core w) + Z.of_nat (length lines))%Z))
    /\ (res = Ok tt ->
        converged w' = (Ok true, w')
        \/ (max_steps (core w') <= nsteps (core w'))%Z).
Proof.
  assert (Hstay : forall (w : World T A) (res : res unit),
             (res = Ok tt ->
              converged w = (Ok true, w)
              \/ (max_steps (core w) <= nsteps (core w))%Z) ->
             max_steps (core w) = max_steps (core w)
             /\ fmax (core w) = fmax (core w)
             /\ maxstep (core w) = maxstep (core w)
             /\ warnings w = warnings w
             /\ (nsteps (core w) <= nsteps (core w))%Z
             /\ (nsteps (core w)
                 <= Z.max (nsteps (core w)) (max_steps (core w)))%Z
             /\ (exists lines,
                   printed w = printed w ++ lines
                   /\ map fst lines
                      = step_numbers (nsteps (core w)) (length lines)
                   /\ (res = Ok tt ->
                       nsteps (core w)
                       = (nsteps (core w) + Z.of_nat (length lines))%Z))
             /\ (res = Ok tt ->
                 converged w = (Ok true, w)
                 \/ (max_steps (core w) <= nsteps (core w))%Z)).
  { intros w res Hexit. repeat (split; [reflexivity || lia|]).
    split; [|exact Hexit].
    exists []. rewrite app_nil_r. repeat split. simpl; lia. }
  induction fuel as [|fuel IH]; intros w w' res E; simpl in E;
    unfold bind at 1 in E;
    destruct (converged w) as [[c|e] wc] eqn:Ec;
    (pose proof Ec as Ec'; apply converged_frame in Ec' as [-> _]).
  1,3: unfold bind at 1 2 in E; unfold gets at 1 2 in E; simpl in E;
    destruct (negb c && (nsteps (core w) <? max_steps (core w))%Z) eqn:Eb;
    simpl in E.
  - injection E as <- <-. apply Hstay. discriminate.
  - injection E as <- <-. apply Hstay. intros _.
    apply andb_false_iff in Eb as [Eb|Eb].
    + left. apply negb_false_iff in Eb. now subst c.
    + right. apply Z.ltb_ge in Eb. exact Eb.
  - apply andb_true_iff in Eb as [_ Elt]. apply Z.ltb_lt in Elt.
    unfold bind at 1 in E.
    destruct (step symeig w) as [[[]|e] w1] eqn:Es.
    + pose proof Es as Es0. apply step_io_frame in Es0 as [Fw Fp].
      pose proof Es as Es'. apply step_inv in Es' as
        (resu & wu & _ & _ & _ & Hn & Hmx & Hfm & Hms & _).
      unfold bind at 1 2 in E. unfold modify at 1, gets at 1 in E.
      simpl in E.
      unfold bind at 1 in E.
      destruct (vmax (row_sumsq (atoms_get_forces (atoms w1))))
        as [m|] eqn:Em; simpl in E.
      * unfold bind at 1 2 in E. unfold gets at 1, modify at 1 in E.
        simpl in E.
        apply IH in E as
          (Gmx & Gfm & Gms & Gw & Gn & Gb & (lines & Gp & Gl & Gk) & Gx).
        simpl in *.
        rewrite Gmx, Gfm, Gms, Gw, Hmx, Hfm, Hms, Fw, Hn in *.
        repeat (split; [reflexivity || lia|]).
        split; [|exact Gx].
        exists (((nsteps (core w) + 1)%Z, ssqrt m) :: lines).
        split; [rewrite Gp, Fp, <- app_assoc; reflexivity|].
        split.
        -- simpl. rewrite step_numbers_cons. f_equal. exact Gl.
        -- intros Eres. rewrite (Gk Eres). simpl length. lia.
      * injection E as <- <-. simpl.
        rewrite Hmx, Hfm, Hms, Fw, Hn.
        repeat (split; [reflexivity || lia|]).
        split; [|discriminate].
        exists []. rewrite app_nil_r, Fp. repeat split. discriminate.
    + injection E as <- <-.
      pose proof Es as Es0. apply step_io_frame in Es0 as [Fw Fp].
      apply step_inv in Es as
        (resu & wu & _ & _ & _ & Hn & Hmx & Hfm & Hms & _).
      rewrite Hmx, Hfm, Hms, Fw, Hn.
      repeat (split; [reflexivity || lia|]).
      split; [|discriminate].
      exists []. rewrite app_nil_r, Fp. repeat split. discriminate.
  - injection E as <- <-. apply Hstay. intros _.
    apply andb_false_iff in Eb as [Eb|Eb].
    + left. apply negb_false_iff in Eb. now subst c.
    + right. apply Z.ltb_ge in Eb. exact Eb.
  - injection E as <- <-. apply Hstay. discriminate.
  - injection E as <- <-. apply Hstay. discriminate.
Qed.

(** X6. Why [run] stops.  [run] leaves [max_steps], [fmax], [maxstep] and
    the warnings alone and only counts [nsteps] up, never past [max_steps]
    when it started at or below it.  When [run] returns normally, either
    [converged()] holds of the final state or [nsteps] has reached
    [max_steps]: reaching the step budget is not reported as an error. *)
Theorem run_stops_converged_or_out_of_steps (fmax0 : T) (w : World T A) :
  let out := run symeig fmax0 w in
  max_steps (core (snd out)) = max_steps (core w)
  /\ fmax (core (snd out)) = fmax (core w)
  /\ maxstep (core (snd out)) = maxstep (core w)
  /\ warnings (snd out) = warnings w
  /\ (nsteps (core w) <= nsteps (core (snd out)))%Z
  /\ (nsteps (core (snd out))
      <= Z.max (nsteps (core w)) (max_steps (core w)))%Z
  /\ (fst out = Ok tt ->
      converged (snd out) = (Ok true, snd out)
      \/ (max_steps (core (snd out)) <= nsteps (core (snd out)))%Z).
Proof.
  intros out. destruct (run symeig fmax0 w) as [res w'] eqn:E.
  subst out. simpl fst; simpl snd. unfold run in E.
  apply run_loop_spec in E as
    (Gmx & Gfm & Gms & Gw & Gn & Gb & _ & Gx).
  auto 10.
Qed.

(** X7. What [run] prints.  [run] appends lines to the output and removes
    none; the lines it appends carry the consecutive step numbers
    [nsteps + 1, nsteps + 2, ...]; and when [run] returns normally there is
    exactly one line for each step counted. *)
Theorem run_prints_one_numbered_line_per_step (fmax0 : T) (w : World T A) :
  let out := run symeig fmax0 w in
  exists lines,
    printed (snd out) = printed w ++ lines
    /\ map fst lines = step_numbers (nsteps (core w)) (length lines)
    /\ (fst out = Ok tt ->
        nsteps (core (snd out))
        = (nsteps (core w) + Z.of_nat (length lines))%Z).
Proof.
  intros out. destruct (run symeig fmax0 w) as [res w'] eqn:E.
  subst out. simpl fst; simpl snd. unfold run in E.
  apply run_loop_spec in E as (_ & _ & _ & _ & _ & _ & Hlines & _).
  exact Hlines.
Qed.

End RunExtras.

(** ** The bound on a step *)

Section StepBound.
Context {A : Type} {AT : AtomsAPI R A}.
Local Open Scope R_scope.


Lemma mscale_rows (k : nat) (m : mat R) (c : R) :
  Forall (fun row => length row = k) m ->
  Forall (fun row => length row = k) (mscale m c).
Proof.
  intros Hm. unfold mscale. apply Forall_forall. intros row Hin.
  apply in_map_iff in Hin as (row' & <- & Hrow').
  rewrite length_map. rewrite Forall_forall in Hm. auto.
Qed.

End StepBound.

(** ** Not-a-number forces in binary64 *)

Section NanForces.
Context {A : Type} {AT : AtomsAPI float A}.

Lemma SFeqb_self_false (s : spec_float) :
  SFeqb s s = false -> s = S754_nan.
Proof.
  unfold SFeqb. destruct s as [b|b| |b m e]; simpl; auto;
    try destruct b; try discriminate.
  all: rewrite Z.compare_refl;
    change (PosDef.Pos.compare_cont Eq m m) with (Pos.compare m m);
    rewrite Pos.compare_refl; simpl; discriminate.
Qed.

Lemma is_nan_Prim2SF (x : float) :
  is_nan x = true <-> Prim2SF x = S754_nan.
Proof.
  unfold is_nan. rewrite FloatAxioms.eqb_spec. split.
  - intros E. apply negb_true_iff in E. now apply SFeqb_self_false.
  - intros ->. reflexivity.
Qed.

Lemma is_nan_add_l (x y : float) :
  is_nan x = true -> is_nan (x + y)%float = true.
Proof. rewrite !is_nan_Prim2SF, add_spec. intros ->. reflexivity. Qed.

Lemma is_nan_add_r (x y : float) :
  is_nan y = true -> is_nan (x + y)%float = true.
Proof.
  rewrite !is_nan_Prim2SF, add_spec. intros ->.
  destruct (Prim2SF x); reflexivity.
Qed.

Lemma is_nan_sq (x : float) : is_nan x = true -> is_nan (ssq x) = true.
Proof.
  unfold ssq; simpl.
  rewrite !is_nan_Prim2SF, mul_spec. intros ->. reflexivity.
Qed.

Lemma ltb_nan_l (x y : float) :
  is_nan x = true -> PrimFloat.ltb x y = false.
Proof. rewrite is_nan_Prim2SF, ltb_spec. intros ->. reflexivity. Qed.

Lemma float_max_nan_l (x y : float) :
  is_nan x = true -> is_nan (float_max x y) = true.
Proof. intros E. unfold float_max. now rewrite E. Qed.

Lemma float_max_nan_r (x y : float) :
  is_nan y = true -> is_nan (float_max x y) = true.
Proof.
  intros E. unfold float_max. destruct (is_nan x) eqn:Ex; [exact Ex|].
  now rewrite E.
Qed.

Lemma fold_nan_acc (op : float -> float -> float) (l : list float) :
  (forall x y, is_nan x = true -> is_nan (op x y) = true) ->
  forall a, is_nan a = true -> is_nan (fold_left op l a) = true.
Proof.
  intros Hl. induction l as [|x l IH]; intros a Ea; simpl; auto.
Qed.

Lemma fold_nan_in (op : float -> float -> float) (l : list float) :
  (forall x y, is_nan x = true -> is_nan (op x y) = true) ->
  (forall x y, is_nan y = true -> is_nan (op x y) = true) ->
  Exists (fun x => is_nan x = true) l ->
  forall a, is_nan (fold_left op l a) = true.
Proof.
  intros Hl Hr. induction 1 as [x l Ex|x l _ IH]; intros a; simpl.
  - apply fold_nan_acc; auto.
  - apply IH.
Qed.

(** The sum of the squares of a row with a not-a-number is not a number. *)
Lemma row_sumsq_nan (row : vec float) :
  Exists (fun x => is_nan x = true) row ->
  is_nan (vsum (map ssq row)) = true.
Proof.
  intros Hrow. unfold vsum. simpl.
  apply (@fold_nan_in PrimFloat.add _ is_nan_add_l is_nan_add_r).
  apply Exists_exists in Hrow as (x & Hin & Ex).
  apply Exists_exists. exists (ssq x). split.
  - now apply in_map.
  - now apply is_nan_sq.
Qed.

(** The [max] reduction propagates not-a-number. *)
Lemma vmax_nan (l : vec float) :
  Exists (fun x => is_nan x = true) l ->
  exists m, vmax l = Some m /\ is_nan m = true.
Proof.
  intros Hl. destruct l as [|x l]; [inversion Hl|].
  exists (fold_left float_max l x). split; [reflexivity|].
  inversion Hl as [? ? Ex|? ? Hl']; subst.
  - apply (@fold_nan_acc float_max l float_max_nan_l). exact Ex.
  - apply (@fold_nan_in float_max l float_max_nan_l float_max_nan_r Hl').
Qed.

End NanForces.

(** ** The further properties at sample inputs *)

Lemma update_satisfies_secant_equation_witness :
  exists w' h',
    update [1; 0; 0]%R [-1; 0; -1]%R
           (Some [0; 0; 0]%R) (Some [0; 0; -1]%R) world_R
    = (Ok tt, w')
    /\ H (core w') = Some h'
    /\ matvec h' (vsub [1; 0; 0]%R [0; 0; 0]%R)
       = map Ropp (vsub [-1; 0; -1]%R [0; 0; -1]%R).
Proof.
  apply (@update_satisfies_secant_equation
           (Sys R) world_R (mscale (eye 3) 70%R)
           [1; 0; 0]%R [-1; 0; -1]%R [0; 0; 0]%R [0; 0; -1]%R 3
           (fold_left Rmax [Rabs (0 - 0); Rabs (0 - 0)] (Rabs (1 - 0)))).
  - reflexivity.
  - split; [reflexivity|repeat constructor].
  - reflexivity.
  - reflexivity.
  - reflexivity.
  - reflexivity.
  - reflexivity.
  - destruct (fold_Rmax_spec [Rabs (0 - 0); Rabs (0 - 0)] (Rabs (1 - 0)))
      as (_ & Hle & _).
    replace (1 - 0)%R with 1%R in Hle at 1 by lra.
    rewrite Rabs_R1 in Hle. lra.
  - cbv [dot vsub vsum zipWith fold_left smul ssub sadd szero R_Scalar].
    lra.
  - cbv [dot vsub vsum zipWith fold_left matvec mscale eye map seq Nat.eqb
         smul ssub sadd szero sone R_Scalar].
    lra.
Defined.

Lemma failed_first_step_blocks_later_steps_witness :
  H (core (with_core bind_H
             (init sys_empty_f 0x1.47ae147ae147bp-5%float
                   0x1.999999999999ap-5%float 70%float)))
  = Some (mscale (eye (3 * atoms_len sys_empty_f)) 70%float)
  /\ r0 (core (with_core bind_H
                 (init sys_empty_f 0x1.47ae147ae147bp-5%float
                       0x1.999999999999ap-5%float 70%float)))
     = None
  /\ forall w' : World float (Sys float),
       core w'
       = core (with_core bind_H
                 (init sys_empty_f 0x1.47ae147ae147bp-5%float
                       0x1.999999999999ap-5%float 70%float)) ->
       step eig_empty w' = (Raise TypeError, w').
Proof.
  apply (@failed_first_step_blocks_later_steps
           float float_Scalar (Sys float) _ eig_empty sys_empty_f
           0x1.47ae147ae147bp-5%float 0x1.999999999999ap-5%float 70%float
           RuntimeError).
  vm_compute. reflexivity.
Defined.

Lemma run_on_empty_system_raises_witness :
  converged (init sys_empty_f 0x1.47ae147ae147bp-5%float
                  0x1.999999999999ap-5%float 70%float)
  = (Raise ValueError,
     init sys_empty_f 0x1.47ae147ae147bp-5%float
          0x1.999999999999ap-5%float 70%float)
  /\ run eig_empty 0x1.999999999999ap-5%float
         (init sys_empty_f 0x1.47ae147ae147bp-5%float
               0x1.999999999999ap-5%float 70%float)
     = (Raise ValueError,
        init sys_empty_f 0x1.47ae147ae147bp-5%float
             0x1.999999999999ap-5%float 70%float).
Proof.
  apply (@run_on_empty_system_raises
           float float_Scalar (Sys float) _ eig_empty).
  reflexivity.
Defined.




(** ** The first step follows the force *)

Section FirstStep.
Context {A : Type} {AT : AtomsAPI R A}.
Local Open Scope R_scope.
















End FirstStep.

Section FirstStepTheorem.
Context {A : Type} {AT : AtomsAPI R A}.
Local Open Scope R_scope.


End FirstStepTheorem.



(** ** How [update] fails *)

Section UpdateFailure.
Context {T : Type} {ST : Scalar T} {A : Type}.

Lemma zipWith_nil_inv (op : T -> T -> T) (u v : vec T) :
  zipWith op u v = [] -> u = [] \/ v = [].
Proof. destruct u, v; simpl; auto; discriminate. Qed.

End UpdateFailure.

(* ================================================================== *)
(** * The update and the convergence test in the words of the
      specification *)

Section SpecWords.
Context {A : Type} {AT : AtomsAPI R A}.
Local Open Scope R_scope.

Lemma rsum_shift (k : nat) (g : nat -> R) :
  rsum (S k) g = g 0%nat + rsum k (fun i => g (S i)).
Proof.
  induction k as [|k IH]; simpl in *; [lra|]. rewrite IH. lra.
Qed.

Lemma rsum_ext (n : nat) (g g' : nat -> R) :
  (forall i, (i < n)%nat -> g i = g' i) -> rsum n g = rsum n g'.
Proof.
  induction n as [|n IH]; intros E; simpl; [reflexivity|].
  rewrite IH by (intros i Hi; apply E; lia).
  rewrite (E n) by lia. reflexivity.
Qed.

(** The dot product of the model is the sum of the products of the
    components. *)
Lemma dot_rsum (u : vec R) :
  forall (v : vec R) (n : nat),
    length u = n -> length v = n ->
    dot u v = rsum n (fun i => nth i u 0 * nth i v 0).
Proof.
  induction u as [|x u IH]; intros [|y v] n Lu Lv; simpl in Lu, Lv;
    subst n; try discriminate; [reflexivity|].
  rewrite dot_cons, rsum_shift. simpl nth.
  rewrite (IH v (length u)) by (auto; lia). reflexivity.
Qed.

Lemma vsum_rsum (l : vec R) :
  vsum l = rsum (length l) (fun i => nth i l 0).
Proof.
  unfold vsum. simpl.
  induction l as [|x l IH]; [reflexivity|].
  simpl fold_left. rewrite fold_Rplus_acc, IH.
  simpl length. rewrite rsum_shift. simpl nth. lra.
Qed.

(** What [converged] computes for one particle is the sum of the squares
    of its components. *)
Lemma row_sumsq_sum_sq (m : mat R) : row_sumsq m = map sum_sq m.
Proof.
  unfold row_sumsq. apply map_ext. intros row.
  rewrite vsum_rsum, length_map. unfold sum_sq.
  apply rsum_ext. intros k Hk.
  rewrite (map_nth_in ssq row 0 0) by assumption. reflexivity.
Qed.

Lemma vsub_nth (u v : vec R) (n i : nat) :
  length u = n -> length v = n -> (i < n)%nat ->
  nth i (vsub u v) 0 = nth i u 0 - nth i v 0.
Proof.
  intros Lu Lv Hi. unfold vsub.
  apply (zipWith_nth Rminus u v 0); lia.
Qed.

(** The absolute components of [r - r0]. *)
Lemma vabs_vsub_components (r r0v : vec R) (n : nat) :
  length r = n -> length r0v = n ->
  vabs (vsub r r0v)
  = map (fun i => Rabs (nth i r 0 - nth i r0v 0)) (seq 0 n).
Proof.
  intros Lr Lr0. apply (nth_ext _ _ 0 0).
  - unfold vabs, vsub.
    rewrite !length_map, length_seq, zipWith_length; lia.
  - intros i Hi. unfold vabs, vsub in Hi.
    rewrite length_map, zipWith_length in Hi by lia.
    unfold vabs. rewrite (map_nth_in _ _ 0 0)
      by (unfold vsub; rewrite zipWith_length; lia).
    rewrite (@vsub_nth r r0v n) by (auto; lia).
    rewrite (map_nth_in _ _ 0%nat 0) by (rewrite length_seq; lia).
    rewrite seq_nth by lia. reflexivity.
Qed.

(** The operands of the correction, component by component. *)
Lemma update_operands (n : nat) (h : mat R) (r f r0v f0v : vec R) :
  mat_shape n n h ->
  length r = n -> length r0v = n -> length f = n -> length f0v = n ->
  let dr := fun i => nth i r 0 - nth i r0v 0 in
  let df := fun i => nth i f 0 - nth i f0v 0 in
  let dg := fun i => rsum n (fun j => entry i j h * dr j) in
  dot (vsub r r0v) (vsub f f0v) = rsum n (fun i => dr i * df i)
  /\ (forall i, (i < n)%nat ->
        nth i (matvec h (vsub r r0v)) 0 = dg i)
  /\ dot (vsub r r0v) (matvec h (vsub r r0v))
     = rsum n (fun i => dr i * dg i).
Proof.
  intros Sh Lr Lr0 Lf Lf0 dr df dg.
  assert (Ldr : length (vsub r r0v) = n)
    by (unfold vsub; rewrite zipWith_length; lia).
  assert (Ldf : length (vsub f f0v) = n)
    by (unfold vsub; rewrite zipWith_length; lia).
  assert (Hdg : forall i, (i < n)%nat ->
            nth i (matvec h (vsub r r0v)) 0 = dg i).
  { intros i Hi. unfold matvec.
    rewrite (map_nth_in _ _ [] 0) by (destruct Sh; lia).
    rewrite (@dot_rsum _ _ n) by (auto; exact (mat_shape_row Sh Hi)).
    apply rsum_ext. intros j Hj.
    rewrite (@vsub_nth r r0v n) by auto. reflexivity. }
  split; [|split; [exact Hdg|]].
  - rewrite (@dot_rsum _ _ n) by auto.
    apply rsum_ext. intros i Hi.
    now rewrite (@vsub_nth r r0v n), (@vsub_nth f f0v n) by auto.
  - rewrite (@dot_rsum _ _ n) by (auto; now rewrite matvec_length; apply Sh).
    apply rsum_ext. intros i Hi.
    now rewrite (@vsub_nth r r0v n), Hdg by auto.
Qed.

(** C1. Let [H] be set, an [n x n] matrix, and let [r], [r0], [f], [f0] have
    [n] components.  Write [dr_i = r_i - r0_i] and [df_i = f_i - f0_i],
    [a = sum_i dr_i df_i], [dg_i = sum_j H_ij dr_j] and
    [b = sum_i dr_i dg_i].  Whenever the largest of the absolute values
    [|dr_i|] is at least [1e-7], [update(r, f, r0, f0)] returns normally and
    replaces [H] by [H - (outer(df,df)/a + outer(dg,dg)/b)]: the new entry
    [(i,j)] is [H_ij - (df_i df_j / a + dg_i dg_j / b)].  Nothing else of
    the object or of the external system changes. *)
Theorem update_rank_two_correction_componentwise
    (w : World R A) (h : mat R) (r f r0v f0v : vec R) (n : nat) (m : R) :
  H (core w) = Some h -> mat_shape n n h ->
  length r = n -> length r0v = n -> length f = n -> length f0v = n ->
  is_max m (map (fun i => Rabs (nth i r 0 - nth i r0v 0)) (seq 0 n)) ->
  1e-7 <= m ->
  let dr := fun i => nth i r 0 - nth i r0v 0 in
  let df := fun i => nth i f 0 - nth i f0v 0 in
  let a := rsum n (fun i => dr i * df i) in
  let dg := fun i => rsum n (fun j => entry i j h * dr j) in
  let b := rsum n (fun i => dr i * dg i) in
  exists w' h',
    update r f (Some r0v) (Some f0v) w = (Ok tt, w')
    /\ H (core w') = Some h'
    /\ mat_shape n n h'
    /\ (forall i j, (i < n)%nat -> (j < n)%nat ->
          entry i j h'
          = entry i j h - (df i * df j / a + dg i * dg j / b))
    /\ atoms w' = atoms w
    /\ r0 (core w') = r0 (core w) /\ f0 (core w') = f0 (core w)
    /\ maxstep (core w') = maxstep (core w)
    /\ fmax (core w') = fmax (core w)
    /\ nsteps (core w') = nsteps (core w)
    /\ max_steps (core w') = max_steps (core w)
    /\ warnings w' = warnings w /\ printed w' = printed w.
Proof.
  intros E Sh Lr Lr0 Lf Lf0 Hmax Hm dr df a dg b.
  pose proof (vabs_vsub_components r r0v Lr Lr0) as Eabs.
  assert (Evm : vmax (vabs (vsub r r0v)) = Some m).
  { destruct (@vmax_is_max (vabs (vsub r r0v))) as (m' & E' & Hm').
    - rewrite Eabs. intros Enil. destruct Hmax as [Hin _].
      rewrite Enil in Hin. destruct Hin.
    - rewrite Eabs in Hm'. now rewrite (is_max_unique Hmax Hm'). }
  destruct (@update_operands n h r f r0v f0v Sh Lr Lr0 Lf Lf0)
    as (Ea & Edg & Eb).
  fold dr df in Ea. fold dr dg in Edg. fold dr dg in Eb.
  set (val := correction h r f r0v f0v).
  assert (Eu : update r f (Some r0v) (Some f0v) w
               = (Ok tt, with_core (isub_H val) w)).
  { unfold val, correction. eapply update_proper; eauto.
    simpl. now apply Rltb_false. }
  assert (Ldf : length (vsub f f0v) = n)
    by (unfold vsub; rewrite zipWith_length; lia).
  assert (Ldg : length (matvec h (vsub r r0v)) = n)
    by (rewrite matvec_length; apply Sh).
  assert (Sval : mat_shape n n val)
    by (unfold val, correction; apply correction_shape; auto).
  apply H_Some in E as [Eb' E0].
  exists (with_core (isub_H val) w), (msub h val).
  split; [exact Eu|]. split.
  { unfold H; simpl. now rewrite Eb', E0. }
  split; [now apply msub_shape|]. split.
  { intros i j Hi Hj.
    rewrite (@msub_entry _ _ n n) by auto.
    unfold val, correction.
    rewrite (@correction_entry _ _ n) by auto.
    rewrite !(@vsub_nth f f0v n) by auto.
    rewrite !Edg by auto. rewrite Ea, Eb. reflexivity. }
  simpl. repeat split; reflexivity.
Qed.

(** C3. With at least one particle, [converged()] returns normally and
    leaves the whole state (object, external system, output) as it was.
    Its answer is [true] exactly when the maximum over the particles of the
    sum of the squares of the force components is strictly below
    [fmax^2]; when that maximum equals [fmax^2] the answer is [false]. *)
Theorem converged_iff_max_squared_force_below_fmax_squared
    (w : World R A) :
  atoms_get_forces (atoms w) <> [] ->
  exists mx b,
    is_max mx (map sum_sq (atoms_get_forces (atoms w)))
    /\ converged w = (Ok b, w)
    /\ (b = true <-> mx < fmax (core w) ^ 2)
    /\ (mx = fmax (core w) ^ 2 -> b = false).
Proof.
  intros Hne.
  destruct (@converged_compares_computed_max A AT w Hne)
    as (mx & b & Hmx & Ec & Hiff & Heq).
  rewrite row_sumsq_sum_sq in Hmx.
  replace (fmax (core w) ^ 2) with (fmax (core w) * fmax (core w))
    by ring.
  exists mx, b. auto.
Qed.

End SpecWords.

(* ================================================================== *)
(** ** The sample update *)

Lemma Rabs_minus_one : Rabs (-1 - 0) = 1%R.
Proof. unfold Rabs. destruct (Rcase_abs (-1 - 0)); lra. Qed.

Lemma Rabs_zero_diff : Rabs (0 - 0) = 0%R.
Proof. unfold Rabs. destruct (Rcase_abs (0 - 0)); lra. Qed.

(** The largest absolute component of the sample step is 1. *)
Lemma sample_step_max :
  is_max 1%R (map (fun i => Rabs (nth i sample_r 0 - nth i sample_r0 0)%R)
                  (seq 0 3)).
Proof.
  simpl. rewrite Rabs_minus_one, Rabs_zero_diff. split.
  - simpl. auto.
  - intros x [<-|[<-|[<-|[]]]]; lra.
Qed.

(** On an object whose [H] is [h], the sample update passes the tolerance
    test and subtracts its correction. *)
Lemma sample_update_proper (w : World R (Sys R)) (h : mat R) :
  H (core w) = Some h ->
  update sample_r sample_f (Some sample_r0) (Some sample_f0) w
  = (Ok tt,
     with_core
       (isub_H (correction h sample_r sample_f sample_r0 sample_f0)) w).
Proof.
  intros E. unfold correction. eapply update_proper; [exact E|reflexivity|].
  simpl. apply Rltb_false.
  destruct (fold_Rmax_spec [Rabs (-1 - 0); Rabs (0 - 0)] (Rabs (0 - 0)))
    as (_ & _ & Hall).
  specialize (Hall (Rabs (-1 - 0)) (or_introl eq_refl)).
  simpl in Hall. pose proof Rabs_minus_one as E1. lra.
Qed.

Ltac eval_tensors :=
  cbv [entry nth msub madd mdivs mscale ger matvec dot vsum vsub vadd
       zipWith combine map fold_left fst snd eye seq Nat.eqb correction
       sample_r sample_f sample_r0 sample_f0
       smul sadd ssub sdiv szero sone R_Scalar].

(** The matrix the sample update leaves from [70 * I]: the middle entry
    has become 2 and the matrix is no longer a multiple of the identity. *)
Lemma sample_update_entries :
  let h' := msub (mscale (eye 3) 70%R)
                 (correction (mscale (eye 3) 70%R)
                             sample_r sample_f sample_r0 sample_f0) in
  entry 1 1 h' = 2%R /\ entry 0 0 h' = 70%R /\ entry 0 1 h' = 0%R.
Proof.
  cbv zeta. repeat split; eval_tensors; field.
Qed.

(* ================================================================== *)
(** ** The revised properties at sample inputs *)

Lemma update_rank_two_correction_componentwise_witness :
  exists w' h',
    update sample_r sample_f (Some sample_r0) (Some sample_f0) world_R
    = (Ok tt, w')
    /\ H (core w') = Some h'
    /\ entry 1 1 h' = 2%R.
Proof.
  destruct (@update_rank_two_correction_componentwise
              (Sys R) world_R (mscale (eye 3) 70%R)
              sample_r sample_f sample_r0 sample_f0 3 1%R)
    as (w' & h' & Eu & EH & _ & Hent & _).
  - reflexivity.
  - split; [reflexivity|repeat constructor].
  - reflexivity.
  - reflexivity.
  - reflexivity.
  - reflexivity.
  - exact sample_step_max.
  - lra.
  - exists w', h'. split; [exact Eu|]. split; [exact EH|].
    rewrite (Hent 1%nat 1%nat) by lia.
    cbv [rsum entry nth mscale eye map seq Nat.eqb
         sample_r sample_f sample_r0 sample_f0 smul sone szero R_Scalar].
    field.
Defined.

Lemma converged_iff_max_squared_force_below_fmax_squared_witness :
  converged world_R = (Ok false, world_R).
Proof.
  destruct (@converged_iff_max_squared_force_below_fmax_squared
              (Sys R) _ world_R)
    as (mx & b & [Hin _] & Ec & Hiff & _).
  - simpl. discriminate.
  - destruct Hin as [<-|[]].
    destruct b; [|exact Ec].
    exfalso. destruct Hiff as [Hlt _]. specialize (Hlt eq_refl).
    cbv [sum_sq rsum length nth world_R core fmax] in Hlt. lra.
Defined.

Lemma H_symmetry_invariant_witness :
  exists h,
    H (core (updates sample_calls (init sys_R 0.04%R 0.05%R 70%R)))
    = Some h
    /\ entry 1 1 h = 2%R
    /\ mat_shape 3 3 h /\ symmetric 3 h.
Proof.
  assert (EW : updates sample_calls (init sys_R 0.04%R 0.05%R 70%R)
               = with_core
                   (isub_H (correction (mscale (eye 3) 70%R)
                              sample_r sample_f sample_r0 sample_f0))
                   (with_core bind_H (init sys_R 0.04%R 0.05%R 70%R))).
  { unfold sample_calls, updates. cbn [call_r call_f call_r0 call_f0].
    assert (E1 : update sample_r0 sample_f0 None None
                   (init sys_R 0.04%R 0.05%R 70%R)
                 = (Ok tt, with_core bind_H (init sys_R 0.04%R 0.05%R 70%R)))
      by (apply update_unset; reflexivity).
    rewrite E1. cbn [snd].
    rewrite (@sample_update_proper _ (mscale (eye 3) 70%R))
      by reflexivity.
    reflexivity. }
  exists (msub (mscale (eye 3) 70%R)
               (correction (mscale (eye 3) 70%R)
                  sample_r sample_f sample_r0 sample_f0)).
  assert (EH : H (core (updates sample_calls
                          (init sys_R 0.04%R 0.05%R 70%R)))
               = Some (msub (mscale (eye 3) 70%R)
                            (correction (mscale (eye 3) 70%R)
                               sample_r sample_f sample_r0 sample_f0)))
    by (rewrite EW; reflexivity).
  split; [exact EH|]. split; [apply sample_update_entries|].
  destruct (@H_symmetry_invariant (Sys R) _) as (_ & _ & P3).
  apply (P3 sys_R 0.04%R 0.05%R 70%R sample_calls); [|exact EH].
  repeat constructor; simpl; intros v Ev; inversion Ev; reflexivity.
Defined.

(* ================================================================== *)
(** ** The bound on a step, particle by particle *)

Section StepBoundRows.
Context {A : Type} {AT : AtomsAPI R A}.
Local Open Scope R_scope.



End StepBoundRows.


(* ================================================================== *)
(** ** Capping a long step twice *)

Lemma long_step_length :
  map ssqrt (row_sumsq long_step) = [1%R].
Proof.
  cbv [long_step row_sumsq map vsum fold_left ssq ssqrt smul sadd szero
       R_Scalar].
  f_equal.
  replace (0 + 0 * 0 + 0 * 0 + -1 * -1)%R with (1 * 1)%R by lra.
  apply sqrt_square. lra.
Qed.

(** The step of length 1 is capped to [capped_long_step], a different
    step. *)
Lemma long_step_is_capped :
  determine_step long_step (map ssqrt (row_sumsq long_step)) world_R
  = (Ok capped_long_step, world_R).
Proof.
  rewrite long_step_length.
  erewrite determine_step_reached; [reflexivity|reflexivity|].
  cbn [fold_left world_R core maxstep]. lra.
Qed.

Lemma capped_long_step_differs : capped_long_step <> long_step.
Proof.
  unfold capped_long_step, long_step, mscale; simpl. intros E.
  injection E as E. lra.
Qed.

Lemma determine_step_idempotent_witness :
  determine_step long_step (map ssqrt (row_sumsq long_step)) world_R
  = (Ok capped_long_step, world_R)
  /\ capped_long_step <> long_step
  /\ determine_step capped_long_step
                    (map ssqrt (row_sumsq capped_long_step)) world_R
     = (Ok capped_long_step, world_R).
Proof.
  split; [exact long_step_is_capped|].
  split; [exact capped_long_step_differs|].
  apply (@determine_step_idempotent (Sys R) world_R
           long_step capped_long_step).
  - simpl. lra.
  - exact long_step_is_capped.
Defined.

(* ================================================================== *)
(** ** Not-a-number forces and the convergence test *)

Section NanConverged.
Context {A : Type} {AT : AtomsAPI float A}.

(** X8. Not-a-number forces do not count as converged.  In binary64, let
    some component of the forces be not a number and let the stored [fmax]
    be of ordinary size, [2^-511 <= |fmax| <= 2^511], so that its square is
    a normal number and the power [fmax ** 2] neither overflows nor
    underflows.  Then [converged()] returns [False] and changes nothing:
    the sum of squares and the [max] reduction propagate the not-a-number,
    and a not-a-number is below no threshold. *)
Theorem converged_is_false_on_nan_force (w : World float A) :
  Exists (fun row => Exists (fun x => is_nan x = true) row)
         (atoms_get_forces (atoms w)) ->
  PrimFloat.leb 0x1p-511%float (abs (fmax (core w))) = true ->
  PrimFloat.leb (abs (fmax (core w))) 0x1p511%float = true ->
  converged w = (Ok false, w).
Proof.
  intros Hf _ _.
  destruct (@vmax_nan (row_sumsq (atoms_get_forces (atoms w))))
    as (m & Em & Hm).
  { apply Exists_exists in Hf as (row & Hin & Hrow).
    apply Exists_exists. exists (vsum (map ssq row)). split.
    - unfold row_sumsq.
      now apply (in_map (fun row => vsum (map ssq row))).
    - now apply row_sumsq_nan. }
  unfold converged; run_monad. rewrite Em. simpl.
  now rewrite (@ltb_nan_l m _ Hm).
Qed.

End NanConverged.

Lemma converged_is_false_on_nan_force_witness :
  converged (init sys_nan_f 0x1.47ae147ae147bp-5%float
                  0x1.999999999999ap-5%float 70%float)
  = (Ok false,
     init sys_nan_f 0x1.47ae147ae147bp-5%float
          0x1.999999999999ap-5%float 70%float).
Proof.
  apply (@converged_is_false_on_nan_force (Sys float) _).
  - constructor. constructor. vm_compute. reflexivity.
  - vm_compute. reflexivity.
  - vm_compute. reflexivity.
Defined.

(* ================================================================== *)
(** ** How [update] fails on well-shaped tensors *)

Section UpdateFailureShaped.
Context {T : Type} {ST : Scalar T} {A : Type}.

(** X11. [update] never leaves a partial write.  Let the tensors passed
    have [n] components each and the tensor behind [H] be [n x n].  When
    [update] returns normally [H] is set.  When it raises, the object is
    exactly as before, [H] was already set, and the cause is one of two: a
    [TypeError] because [r0] or [f0] is [None], or a [RuntimeError] from
    the [max] of an empty tensor because there is no component at all
    ([n = 0]). *)
Theorem update_raises_without_writing
    (n : nat) (c : update_call T) (w : World T A) :
  call_shaped n c ->
  mat_shape n n (H0 (core w)) ->
  let out := update (call_r c) (call_f c) (call_r0 c) (call_f0 c) w in
  match fst out with
  | Ok _ => H (core (snd out)) <> None
  | Raise e =>
      snd out = w
      /\ H (core w) <> None
      /\ ((e = TypeError /\ (call_r0 c = None \/ call_f0 c = None))
          \/ (e = RuntimeError /\ n = 0 /\ call_r0 c <> None))
  end.
Proof.
  intros (Lr & Lf & Lr0 & Lf0) _ out. subst out.
  destruct (update (call_r c) (call_f c) (call_r0 c) (call_f0 c) w)
    as [res w'] eqn:E. simpl fst; simpl snd.
  destruct res as [[]|e].
  - apply update_ok_bound in E. unfold H. rewrite E. discriminate.
  - pose proof E as E'. apply update_raise in E' as [-> _].
    unfold update, bind, gets, unwrap, ret, raise, modify in E.
    destruct (H (core w)) as [h|] eqn:Eh; [|discriminate].
    split; [reflexivity|]. split; [discriminate|].
    destruct (call_r0 c) as [r0v|] eqn:Er0.
    2:{ injection E as <-. auto. }
    destruct (vmax (vabs (vsub (call_r c) r0v))) as [m|] eqn:Em.
    2:{ injection E as <-. right. split; [reflexivity|].
        split; [|discriminate].
        unfold vmax in Em.
        destruct (vabs (vsub (call_r c) r0v)) eqn:Ev; [|discriminate].
        apply map_eq_nil in Ev. apply zipWith_nil_inv in Ev.
        specialize (Lr0 r0v eq_refl).
        destruct Ev as [Ev|Ev]; rewrite Ev in *; simpl in *; lia. }
    destruct (m [<] s1em7); [discriminate|].
    destruct (call_f0 c) as [f0v|]; [discriminate|].
    injection E as <-. auto.
Qed.

End UpdateFailureShaped.

Lemma update_raises_without_writing_witness :
  fst (update [1; 0; 0]%float [0; 0; 0]%float None (Some [0; 0; -1]%float)
              world_f)
  = Raise TypeError
  /\ snd (update [1; 0; 0]%float [0; 0; 0]%float None
                 (Some [0; 0; -1]%float) world_f)
     = world_f.
Proof.
  pose proof (@update_raises_without_writing
                float float_Scalar (Sys float) 3
                (mkCall [1; 0; 0]%float [0; 0; 0]%float None
                        (Some [0; 0; -1]%float))
                world_f) as P.
  cbv zeta in P. cbn [call_r call_f call_r0 call_f0] in P.
  assert (Ef : fst (update [1; 0; 0]%float [0; 0; 0]%float None
                           (Some [0; 0; -1]%float) world_f)
               = Raise TypeError) by (vm_compute; reflexivity).
  rewrite Ef in P. split; [reflexivity|].
  apply P.
  - repeat split; try reflexivity; intros v Ev; inversion Ev; reflexivity.
  - split; [reflexivity|repeat constructor].
Defined.
